(** * Tile compositing and caching engine of the map viewer

    A shallow embedding of the core of [edit.cpp] (the cached, per-tile-blit
    compositor built by the Makefile) and of the per-output-pixel compositor
    of [c1.cpp] / [map_visual.cpp].

    Conventions of the embedding.
    - C++ [int] values are integers in [Z]; signed overflow is undefined
      behaviour in C++, so the model describes the runs in which no [int]
      computation overflows.  Where the code shifts and multiplies [int]s
      that can leave 32 bits ([1 << zoom], [tileSize * (1 << zoom)]) the
      wrap-around is written out ([wrap_int]).
    - C++ [double] values of the grid arithmetic are exact rationals in [Q]:
      [floor], [fmod] and the casts to [int] are exact on doubles, and the
      remaining [+], [-], [/] are taken without rounding.  The Web Mercator
      formulas, which use [log], [tan] and [cos], are stated over the real
      numbers in module [Projection]; the horizontal coordinate is also
      given as computed in binary64, in module [ProjectionDouble].  The
      threshold [1e-6] of the smooth update is the binary64 value that the
      literal denotes ([double_1e_6]); its interpolation factor [0.2] is
      taken as one fifth.
    - [std::vector<unsigned char>] is a [list byte]; reading or writing a
      vector outside its bounds is undefined behaviour and is made explicit
      as an [outcome].
    - The process-wide cache [g_tileCache] and the sequence of network
      requests are threaded through explicitly as a [State]. *)

From Stdlib Require Import ZArith QArith Qround Qabs Qpower Reals Zfloor.
From Stdlib Require Import Lra Lia.
From Stdlib Require Lqa.
From Stdlib Require Import Floats.
From stdpp Require Import gmap list strings pretty.

Local Open Scope Z_scope.

(** ** Doubles of the grid arithmetic *)

Module Dbl.

(** [static_cast<int>(floor(x))] *)
Definition floor (x : Q) : Z := Qfloor x.

(** [(int)x]: conversion to [int] truncates toward zero. *)
Definition trunc (x : Q) : Z :=
  if Qle_bool 0 x then Qfloor x else Qceiling x.

(** [fmod(x, y)]: [x - n*y] where [n] is [x/y] with its fractional part
    truncated; the result has the sign of [x]. *)
Definition fmod (x y : Q) : Q :=
  (x - inject_Z (trunc (x / y)) * y)%Q.

(** An [int] used in a [double] expression. *)
Definition of_int (z : Z) : Q := inject_Z z.

End Dbl.

(** ** Buffers and undefined behaviour *)

Abbreviation byte := Byte.byte.

(** The fill value [255] of [std::vector<unsigned char>(n, 255)]. *)
Definition white : byte := Byte.xff.

(** [std::vector<unsigned char>(n, 255)] for an [int] expression [n]. *)
Definition vector_fill (n : Z) : list byte := replicate (Z.to_nat n) white.

Inductive outcome (A : Type) : Type :=
| Ok (a : A)
| ReadOutOfBounds
| WriteOutOfBounds.
Arguments Ok {A} a.
Arguments ReadOutOfBounds {A}.
Arguments WriteOutOfBounds {A}.

Definition obind {A B} (o : outcome A) (k : A -> outcome B) : outcome B :=
  match o with
  | Ok a => k a
  | ReadOutOfBounds => ReadOutOfBounds
  | WriteOutOfBounds => WriteOutOfBounds
  end.

(** A loop whose body may run into undefined behaviour. *)
Fixpoint foldM {A B} (body : B -> A -> outcome B) (l : list A) (b : B)
  : outcome B :=
  match l with
  | [] => Ok b
  | a :: l' => obind (body b a) (foldM body l')
  end.

(** [for (int i = 0; i < n; ++i) body] *)
Definition for_loop {B} (n : Z) (body : Z -> B -> outcome B) (b : B)
  : outcome B :=
  foldM (fun acc i => body i acc) (seqZ 0 n) b.

(** [memcpy(&dst[dstIdx], &src[srcIdx], n)] on two vectors. *)
Definition memcpy (dst : list byte) (dstIdx : Z) (src : list byte)
    (srcIdx : Z) (n : Z) : outcome (list byte) :=
  if (srcIdx <? 0) || (Z.of_nat (length src) <? srcIdx + n) then
    ReadOutOfBounds
  else if (dstIdx <? 0) || (Z.of_nat (length dst) <? dstIdx + n) then
    WriteOutOfBounds
  else
    Ok (take (Z.to_nat dstIdx) dst
        ++ take (Z.to_nat n) (drop (Z.to_nat srcIdx) src)
        ++ drop (Z.to_nat (dstIdx + n)) dst).

(** ** Tile keys and the tile cache *)

Record TileKey : Type := mkTileKey { key_z : Z; key_x : Z; key_y : Z }.

Global Instance TileKey_eq_dec : EqDecision TileKey.
Proof. solve_decision. Defined.

Global Instance TileKey_countable : Countable TileKey.
Proof.
  refine (inj_countable'
            (fun k => (key_z k, key_x k, key_y k))
            (fun t => match t with (z, x, y) => mkTileKey z x y end) _).
  intros []; reflexivity.
Defined.

(** [g_tileCache.emplace(key, pixels)]: [std::unordered_map::emplace] inserts
    only when no element with that key is present. *)
Definition emplace (key : TileKey) (pixels : list byte)
    (cache : gmap TileKey (list byte)) : gmap TileKey (list byte) :=
  match cache !! key with
  | Some _ => cache
  | None => <[key := pixels]> cache
  end.

(** The [snprintf] of the tile URL. *)
Definition tile_url (zoom tileX tileY : Z) : string :=
  "https://tile.openstreetmap.org/" +:+ pretty zoom +:+ "/" +:+ pretty tileX
    +:+ "/" +:+ pretty tileY +:+ ".png".

(** The two external collaborators.  [DownloadURL n url] is the answer to
    the request for [url] when [n] requests were made before it ([None] is
    the [nullptr] result), so the network may answer differently over time.
    [stbi_load_from_memory] with four requested channels yields the width,
    the height and the RGBA bytes, or [None] for the null pointer. *)
Record Env : Type := mkEnv {
  DownloadURL : nat -> string -> option (list byte);
  stbi_load_from_memory : list byte -> option (Z * Z * list byte)
}.

Record State : Type := mkState {
  g_tileCache : gmap TileKey (list byte);
  requests : list string
}.

(** Lines 103-120 of [LoadAndDecodeTile]: download and decode, outside of
    the mutex. *)
Definition fetch_and_decode (env : Env) (key : TileKey) (tileSize : Z)
    (st : State) : list byte * State :=
  let url := tile_url (key_z key) (key_x key) (key_y key) in
  let raw := DownloadURL env (length (requests st)) url in
  let pixels := vector_fill (tileSize * tileSize * 4) in
  let pixels :=
    match raw with
    | Some data =>
        match stbi_load_from_memory env data with
        | Some (w, h, img) => take (Z.to_nat (w * h * 4)) img
        | None => pixels
        end
    | None => pixels
    end in
  (pixels, mkState (g_tileCache st) (requests st ++ [url])).

(** Lines 122-125: the locked [emplace]. *)
Definition store (key : TileKey) (pixels : list byte) (st : State) : State :=
  mkState (emplace key pixels (g_tileCache st)) (requests st).

(** [LoadAndDecodeTile] run without interference from other threads. *)
Definition LoadAndDecodeTile (env : Env) (tileX tileY zoom tileSize : Z)
    (st : State) : list byte * State :=
  let key := mkTileKey zoom tileX tileY in
  match g_tileCache st !! key with
  | Some cached => (cached, st)
  | None =>
      let '(pixels, st1) := fetch_and_decode env key tileSize st in
      (pixels, store key pixels st1)
  end.

(** ** Concurrent calls of [LoadAndDecodeTile]

    The mutex makes the lookup and the [emplace] atomic; the download and
    decode in between run unlocked.  A call is therefore a task with three
    atomic steps, and concurrent calls interleave their steps. *)

Inductive Task : Type :=
| Called (key : TileKey) (tileSize : Z)
| Fetching (key : TileKey) (tileSize : Z)
| Storing (key : TileKey) (pixels : list byte)
| Returned (pixels : list byte).

Definition task_step (env : Env) (t : Task) (st : State)
  : option (Task * State) :=
  match t with
  | Called key tileSize =>
      match g_tileCache st !! key with
      | Some cached => Some (Returned cached, st)
      | None => Some (Fetching key tileSize, st)
      end
  | Fetching key tileSize =>
      let '(pixels, st1) := fetch_and_decode env key tileSize st in
      Some (Storing key pixels, st1)
  | Storing key pixels => Some (Returned pixels, store key pixels st)
  | Returned _ => None
  end.

Inductive pool_step (env : Env)
  : list Task * State -> list Task * State -> Prop :=
| pool_step_task (i : nat) (t t' : Task) (pool : list Task) (st st' : State) :
    pool !! i = Some t ->
    task_step env t st = Some (t', st') ->
    pool_step env (pool, st) (<[i := t']> pool, st').

Inductive pool_steps (env : Env)
  : list Task * State -> list Task * State -> Prop :=
| pool_steps_refl c : pool_steps env c c
| pool_steps_cons c1 c2 c3 :
    pool_step env c1 c2 -> pool_steps env c2 c3 -> pool_steps env c1 c3.

(** A fetch-and-decode for [key] is in flight in task [t]. *)
Definition in_flight (key : TileKey) (t : Task) : bool :=
  match t with
  | Fetching k _ => bool_decide (k = key)
  | _ => false
  end.

Definition in_flight_count (key : TileKey) (pool : list Task) : nat :=
  length (filter (fun t => in_flight key t = true) pool).

(** ** The tile grid of a viewport (shared by both compositors)

    Lines 140-148 of [edit.cpp], lines 116-124 of [c1.cpp].  [centerX] and
    [centerY] are the global pixel coordinates of the centre, computed by
    the formulas of [Projection]. *)

Record Grid : Type := mkGrid {
  topLeftX : Q;
  topLeftY : Q;
  startTileX : Z;
  startTileY : Z;
  numTilesX : Z;
  numTilesY : Z
}.

Definition grid (finalWidth finalHeight : Z) (centerX centerY : Q)
    (tileSize : Z) : Grid :=
  let topLeftX := (centerX - Dbl.of_int finalWidth / 2)%Q in
  let topLeftY := (centerY - Dbl.of_int finalHeight / 2)%Q in
  let startTileX := Dbl.floor (topLeftX / Dbl.of_int tileSize) in
  let startTileY := Dbl.floor (topLeftY / Dbl.of_int tileSize) in
  let endTileX :=
    Dbl.floor ((topLeftX + Dbl.of_int finalWidth) / Dbl.of_int tileSize) in
  let endTileY :=
    Dbl.floor ((topLeftY + Dbl.of_int finalHeight) / Dbl.of_int tileSize) in
  mkGrid topLeftX topLeftY startTileX startTileY
         (endTileX - startTileX + 1) (endTileY - startTileY + 1).

(** The order in which both fetch loops visit the grid: rows outside,
    columns inside. *)
Definition grid_cells (g : Grid) : list (Z * Z) :=
  ty ← seqZ 0 (numTilesY g); tx ← seqZ 0 (numTilesX g); [(tx, ty)].

(** A loop that threads the [State] and collects one result per element. *)
Fixpoint mapS {A B} (f : A -> State -> B * State) (l : list A) (st : State)
  : list B * State :=
  match l with
  | [] => ([], st)
  | a :: l' =>
      let '(b, st1) := f a st in
      let '(bs, st2) := mapS f l' st1 in
      (b :: bs, st2)
  end.

(** ** The compositor of [edit.cpp] *)

(** Lines 171-172: where tile column (or row) [t] is placed. *)
Definition tile_offset (t tileSize : Z) (topLeft : Q) : Z :=
  Dbl.floor (Dbl.of_int t * Dbl.of_int tileSize
             - Dbl.fmod topLeft (Dbl.of_int tileSize))%Q.

(** Lines 174-184: copy one tile into the raster, clipped. *)
Definition blit_tile (finalWidth finalHeight tileSize offsetX offsetY : Z)
    (pixels finalImage : list byte) : outcome (list byte) :=
  for_loop tileSize (fun j finalImage =>
    let destY := offsetY + j in
    if (destY <? 0) || (finalHeight <=? destY) then Ok finalImage else
    for_loop tileSize (fun i finalImage =>
      let destX := offsetX + i in
      if (destX <? 0) || (finalWidth <=? destX) then Ok finalImage else
      let srcIdx := (j * tileSize + i) * 4 in
      let dstIdx := (destY * finalWidth + destX) * 4 in
      memcpy finalImage dstIdx pixels srcIdx 4) finalImage) finalImage.

(** Lines 166-185: the loop over the futures. *)
Definition composite_tiles (finalWidth finalHeight tileSize : Z) (g : Grid)
    (futures : list (list byte)) (finalImage : list byte)
  : outcome (list byte) :=
  for_loop (Z.of_nat (length futures)) (fun idx finalImage =>
    let ty := Z.quot idx (numTilesX g) in
    let tx := Z.rem idx (numTilesX g) in
    match futures !! Z.to_nat idx with
    | None => ReadOutOfBounds
    | Some pixels =>
        let offsetX := tile_offset tx tileSize (topLeftX g) in
        let offsetY := tile_offset ty tileSize (topLeftY g) in
        blit_tile finalWidth finalHeight tileSize offsetX offsetY
                  pixels finalImage
    end) finalImage.

(** Lines 155-163: one [LoadAndDecodeTile] per grid cell.  The tasks are
    launched with [std::async]; here they run one after the other in launch
    order. *)
Definition launch_tiles (env : Env) (zoom tileSize : Z) (g : Grid)
    (st : State) : list (list byte) * State :=
  mapS (fun '(tx, ty) =>
          LoadAndDecodeTile env (startTileX g + tx) (startTileY g + ty)
                            zoom tileSize)
       (grid_cells g) st.

(** [CompositeMap] of [edit.cpp] from line 140 on. *)
Definition CompositeMap (env : Env) (finalWidth finalHeight : Z)
    (centerX centerY : Q) (zoom tileSize : Z) (st : State)
  : outcome (list byte) * State :=
  let g := grid finalWidth finalHeight centerX centerY tileSize in
  let finalImage := vector_fill (finalWidth * finalHeight * 4) in
  let '(futures, st1) := launch_tiles env zoom tileSize g st in
  (composite_tiles finalWidth finalHeight tileSize g futures finalImage, st1).

(** ** The compositor of [c1.cpp] (and of [map_visual.cpp]) *)

Module C1_cpp.

(** [LoadTileImage]: the decoded buffer, or [None] for the null pointer. *)
Definition LoadTileImage (env : Env) (url : string) (st : State)
  : option (list byte) * State :=
  let st1 := mkState (g_tileCache st) (requests st ++ [url]) in
  match DownloadURL env (length (requests st)) url with
  | None => (None, st1)
  | Some data =>
      match stbi_load_from_memory env data with
      | Some (_, _, img) => (Some img, st1)
      | None => (None, st1)
      end
  end.

(** Lines 127-143: the two-dimensional vector [tileImages]. *)
Definition load_tiles (env : Env) (zoom : Z) (g : Grid) (st : State)
  : list (list (option (list byte))) * State :=
  mapS (fun ty =>
          mapS (fun tx =>
                  LoadTileImage env
                    (tile_url zoom (startTileX g + tx) (startTileY g + ty)))
               (seqZ 0 (numTilesX g)))
       (seqZ 0 (numTilesY g)) st.

(** Lines 146-164: one copy per output pixel. *)
Definition composite_pixels (finalWidth finalHeight tileSize : Z)
    (g : Grid) (tileImages : list (list (option (list byte))))
    (finalImage : list byte) : outcome (list byte) :=
  for_loop finalHeight (fun j finalImage =>
    for_loop finalWidth (fun i finalImage =>
      let globalX := (topLeftX g + Dbl.of_int i)%Q in
      let globalY := (topLeftY g + Dbl.of_int j)%Q in
      let tileCol :=
        Dbl.floor (globalX / Dbl.of_int tileSize) - startTileX g in
      let tileRow :=
        Dbl.floor (globalY / Dbl.of_int tileSize) - startTileY g in
      let pixelX := Z.rem (Dbl.trunc globalX) tileSize in
      let pixelY := Z.rem (Dbl.trunc globalY) tileSize in
      if (0 <=? tileRow) && (tileRow <? numTilesY g)
         && (0 <=? tileCol) && (tileCol <? numTilesX g) then
        match tileImages !! Z.to_nat tileRow with
        | None => ReadOutOfBounds
        | Some row =>
            match row !! Z.to_nat tileCol with
            | None => ReadOutOfBounds
            | Some None => Ok finalImage
            | Some (Some tileImg) =>
                let idxTile := (pixelY * tileSize + pixelX) * 4 in
                let idxFinal := (j * finalWidth + i) * 4 in
                memcpy finalImage idxFinal tileImg idxTile 4
            end
        end
      else Ok finalImage) finalImage) finalImage.

(** [CompositeMap] of [c1.cpp] from line 116 on. *)
Definition CompositeMap (env : Env) (finalWidth finalHeight : Z)
    (centerX centerY : Q) (zoom tileSize : Z) (st : State)
  : outcome (list byte) * State :=
  let g := grid finalWidth finalHeight centerX centerY tileSize in
  let '(tileImages, st1) := load_tiles env zoom g st in
  let finalImage := vector_fill (finalWidth * finalHeight * 4) in
  (composite_pixels finalWidth finalHeight tileSize g tileImages finalImage,
   st1).

End C1_cpp.

(** ** The Web Mercator formulas over the real numbers

    Lines 135-138 of [edit.cpp] (110-114 of [c1.cpp]), read as formulas of
    real arithmetic: an idealisation, in which no operation rounds.  The
    computation in [double] of the horizontal coordinate is module
    [ProjectionDouble] below; [log], [tan] and [cos] of the C library have
    no counterpart among the binary64 operations, so the vertical
    coordinate is stated over the real numbers only. *)

Module Projection.

Local Open Scope R_scope.

(** [pow(2.0, zoom)] *)
Definition n (zoom : Z) : R := powerRZ 2 zoom.

Definition centerX (centerLon : R) (zoom tileSize : Z) : R :=
  (centerLon + 180) / 360 * n zoom * IZR tileSize.

Definition centerY (centerLat : R) (zoom tileSize : Z) : R :=
  let latRad := centerLat * PI / 180 in
  (1 - ln (tan latRad + 1 / cos latRad) / PI) / 2 * n zoom * IZR tileSize.

End Projection.

(** ** The horizontal coordinate as the code computes it, in binary64

    Line 136 of [edit.cpp]: every operation rounds to the nearest [double].
    [pow(2.0, zoom)] is the exact power of two, and the conversion of the
    [int] [tileSize] to [double] is exact. *)

Module ProjectionDouble.

(** An [int] used in a [double] expression. *)
Definition of_int (z : Z) : float :=
  if z <? 0 then PrimFloat.opp (PrimFloat.of_uint63 (Uint63.of_Z (- z)))
  else PrimFloat.of_uint63 (Uint63.of_Z z).

(** [pow(2.0, zoom)] *)
Definition n (zoom : Z) : float := Z.ldexp 1%float zoom.

Definition centerX (centerLon : float) (zoom tileSize : Z) : float :=
  ((centerLon + 180) / 360 * n zoom * of_int tileSize)%float.

End ProjectionDouble.

(** ** The placement formula in the words of the specification

    [offset = t*tileSize - (topLeft mod tileSize)], with the remainder of
    floor division. *)

Definition floor_mod (x y : Q) : Q :=
  (x - inject_Z (Qfloor (x / y)) * y)%Q.

Definition spec_offset (t tileSize : Z) (topLeft : Q) : Q :=
  (inject_Z t * inject_Z tileSize - floor_mod topLeft (inject_Z tileSize))%Q.

(** ** Sequences of cache insertions *)

Definition emplace_all (ops : list (TileKey * list byte))
    (cache : gmap TileKey (list byte)) : gmap TileKey (list byte) :=
  foldl (fun c op => emplace op.1 op.2 c) cache ops.

(** ** Concrete collaborators used in the examples *)

Definition byte_of (n : N) : byte := default Byte.x00 (Byte.of_N n).

(** No request is ever answered. *)
Definition env_offline : Env := mkEnv (fun _ _ => None) (fun _ => None).

(** Every request is answered, but the body is not an image. *)
Definition env_garbage : Env := mkEnv (fun _ _ => Some []) (fun _ => None).

(** Every tile decodes to the same 2x2 image whose bytes are numbered. *)
Definition numbered_2x2 : list byte := byte_of <$> (N.of_nat <$> seq 0 16).
Definition env_2x2 : Env :=
  mkEnv (fun _ _ => Some []) (fun _ => Some (2, 2, numbered_2x2)).

(** Every tile decodes to a 128x128 image. *)
Definition env_128 : Env :=
  mkEnv (fun _ _ => Some [])
        (fun _ => Some (128, 128, replicate (Z.to_nat (128 * 128 * 4)) Byte.x00)).

(** Every tile decodes to a single pixel. *)
Definition env_1x1 : Env :=
  mkEnv (fun _ _ => Some []) (fun _ => Some (1, 1, byte_of <$> [1; 2; 3; 4]%N)).

Definition empty_state : State := mkState ∅ [].

(** ** Predicates on outcomes and rasters *)

(** An outcome that is not a write outside of the destination and, when it
    is a result, satisfies [P]. *)
Definition no_write_fault {A} (P : A -> Prop) (o : outcome A) : Prop :=
  match o with
  | Ok a => P a
  | ReadOutOfBounds => True
  | WriteOutOfBounds => False
  end.

(** The position in the raster of byte [c] of the pixel in column [x] of
    row [y]. *)
Definition byte_index (finalWidth x y c : Z) : nat :=
  Z.to_nat ((y * finalWidth + x) * 4 + c).

(** The cache key of the tile in cell [(tx, ty)] of a grid. *)
Definition cell_key (zoom : Z) (g : Grid) (cell : Z * Z) : TileKey :=
  mkTileKey zoom (startTileX g + cell.1) (startTileY g + cell.2).

(** Every tile of the grid has an entry in the cache. *)
Definition warm (zoom : Z) (g : Grid) (st : State) : Prop :=
  forall tx ty,
    0 <= tx < numTilesX g -> 0 <= ty < numTilesY g ->
    is_Some (g_tileCache st !! mkTileKey zoom (startTileX g + tx)
                                         (startTileY g + ty)).

(** The step [c] on a raster of [L] bytes succeeds, overwrites exactly the
    bytes of region [R] with those of the image [E], and keeps all other
    bytes. *)
Definition paints (L : nat) (E : nat -> option byte) (R : nat -> Prop)
    (c : list byte -> outcome (list byte)) : Prop :=
  forall b, length b = L ->
    exists b', c b = Ok b' /\ length b' = L
      /\ forall k, (b' !! k = E k /\ R k) \/ (b' !! k = b !! k /\ ~ R k).

(** The bytes of the raster pixels that lie under the square of side
    [tileSize] placed at [(offsetX, offsetY)]. *)
Definition in_square (finalWidth finalHeight tileSize offsetX offsetY : Z)
    (k : nat) : Prop :=
  exists x y c,
    k = byte_index finalWidth x y c
    /\ 0 <= x < finalWidth /\ 0 <= y < finalHeight /\ 0 <= c < 4
    /\ offsetX <= x < offsetX + tileSize
    /\ offsetY <= y < offsetY + tileSize.

(** The byte that raster position [k] shows when tile [(tx, ty)] of the
    grid is the image [tiles tx ty] placed at
    [(tx*tileSize + dx, ty*tileSize + dy)]. *)
Definition placed (finalWidth tileSize dx dy : Z)
    (tiles : Z -> Z -> list byte) (k : nat) : option byte :=
  let p := Z.of_nat k / 4 in
  let c := Z.of_nat k mod 4 in
  let x := p mod finalWidth in
  let y := p / finalWidth in
  tiles ((x - dx) / tileSize) ((y - dy) / tileSize)
    !! Z.to_nat ((((y - dy) mod tileSize) * tileSize
                  + (x - dx) mod tileSize) * 4 + c).

(** The futures of a composite whose tile [(tx, ty)] is [tiles tx ty]. *)
Definition futures_of (g : Grid) (tiles : Z -> Z -> list byte)
  : list (list byte) :=
  (fun cell => tiles cell.1 cell.2) <$> grid_cells g.

(** The bytes of the raster that lie under some tile of the grid, tiles
    being placed [tileSize] apart from [(dx, dy)]. *)
Definition under_grid (finalWidth finalHeight tileSize dx dy : Z) (g : Grid)
    (k : nat) : Prop :=
  exists tx ty,
    0 <= tx < numTilesX g /\ 0 <= ty < numTilesY g
    /\ in_square finalWidth finalHeight tileSize
                 (tx * tileSize + dx) (ty * tileSize + dy) k.

(** The vector [tileImages] of [c1.cpp] when every tile [(tx, ty)] of the
    grid loads as [tiles tx ty]. *)
Definition images_of (g : Grid) (tiles : Z -> Z -> list byte)
  : list (list (option (list byte))) :=
  (fun ty => (fun tx => Some (tiles tx ty)) <$> seqZ 0 (numTilesX g))
    <$> seqZ 0 (numTilesY g).

(** What the cache holds for a tile of the grid is the image
    [tiles tx ty]. *)
Definition cache_agrees (zoom : Z) (g : Grid) (tiles : Z -> Z -> list byte)
    (st : State) : Prop :=
  forall tx ty px,
    0 <= tx < numTilesX g -> 0 <= ty < numTilesY g ->
    g_tileCache st !! mkTileKey zoom (startTileX g + tx) (startTileY g + ty)
      = Some px ->
    px = tiles tx ty.

(** Every request for a tile of the grid is answered, at any time, with
    bytes that decode to the [tileSize] x [tileSize] image [tiles tx ty]. *)
Definition serves (env : Env) (zoom tileSize : Z) (g : Grid)
    (tiles : Z -> Z -> list byte) : Prop :=
  forall (n : nat) tx ty,
    0 <= tx < numTilesX g -> 0 <= ty < numTilesY g ->
    Z.of_nat (length (tiles tx ty)) = tileSize * tileSize * 4
    /\ exists data,
         DownloadURL env n
           (tile_url zoom (startTileX g + tx) (startTileY g + ty))
           = Some data
         /\ stbi_load_from_memory env data
            = Some (tileSize, tileSize, tiles tx ty).

(** ** The hash of a tile key

    [TileKeyHash] of [edit.cpp]; [size_t] has 64 bits. *)

(** [static_cast<size_t>(v)] for an [int] [v]. *)
Definition to_size_t (v : Z) : Z := v mod 2 ^ 64.

(** [v << n] on [size_t]. *)
Definition shl_size_t (v n : Z) : Z := Z.shiftl v n mod 2 ^ 64.

Definition TileKeyHash (k : TileKey) : Z :=
  Z.lxor (Z.lxor (shl_size_t (to_size_t (key_z k)) 42)
                 (shl_size_t (to_size_t (key_x k)) 21))
         (to_size_t (key_y k)).

(** ** The download buffer

    [MemoryStruct] and [WriteMemoryCallback].  [memory] is [None] for the
    null pointer and otherwise the allocated block. *)

Record MemoryStruct : Type := mkMemoryStruct {
  memory : option (list byte);
  size : Z
}.

(** A successful [realloc(block, n)]: the old bytes up to [n], then bytes
    of indeterminate value, here [junk]. *)
Definition realloc (junk : byte) (block : option (list byte)) (n : Z)
  : list byte :=
  let old := default [] block in
  take (Z.to_nat n) old ++ replicate (Z.to_nat n - length old) junk.

(** [WriteMemoryCallback(contents, size, nmemb, userp)]; [realloc_ok] tells
    whether the [realloc] succeeds. *)
Definition WriteMemoryCallback (realloc_ok : bool) (junk : byte)
    (contents : list byte) (size nmemb : Z) (mem : MemoryStruct)
  : outcome (Z * MemoryStruct) :=
  let realSize := (size * nmemb) mod 2 ^ 64 in
  let '(mkMemoryStruct block used) := mem in
  if realloc_ok then
    let block := realloc junk block ((used + realSize + 1) mod 2 ^ 64) in
    obind (memcpy block used contents 0 realSize) (fun block =>
      let used := (used + realSize) mod 2 ^ 64 in
      if (used <? 0) || (Z.of_nat (length block) <=? used)
      then WriteOutOfBounds
      else Ok (realSize,
               mkMemoryStruct (Some (<[Z.to_nat used := Byte.x00]> block))
                              used))
  else Ok (0, mkMemoryStruct None used).

(** The calls that one transfer makes on one [MemoryStruct]: one call per
    chunk of the body, with [size = 1] and [nmemb] the length of the
    chunk. *)
Fixpoint receive (junk : byte) (chunks : list (list byte))
    (mem : MemoryStruct) : outcome MemoryStruct :=
  match chunks with
  | [] => Ok mem
  | chunk :: rest =>
      obind (WriteMemoryCallback true junk chunk 1
               (Z.of_nat (length chunk)) mem)
            (fun r => receive junk rest r.2)
  end.

(** [chunk] of [DownloadURL] before the transfer: [malloc(1)], size 0. *)
Definition fresh_chunk (junk : byte) : MemoryStruct :=
  mkMemoryStruct (Some [junk]) 0.

(** ** The event handlers of the viewers *)

(** [int] has 32 bits: [wrap_int z] is the [int] that the compiled code
    holds when the mathematical result of an [int] operation is [z] (two's
    complement; where [z] does not fit the operation overflows). *)
Definition wrap_int (z : Z) : Z := (z + 2 ^ 31) mod 2 ^ 32 - 2 ^ 31.

(** [v << n] and [a * b] on [int]. *)
Definition shl_int (v n : Z) : Z := wrap_int (Z.shiftl v n).
Definition mul_int (a b : Z) : Z := wrap_int (a * b).

(** [std::clamp(v, lo, hi)] *)
Definition clamp (v lo hi : Z) : Z :=
  if v <? lo then lo else if hi <? v then hi else v.

(** The mouse wheel of [edit.cpp], lines 290-292. *)
Definition wheel_zoom (zoom : Z) (wheel : Q) : Z :=
  if Qeq_bool wheel 0 then zoom
  else clamp (zoom + (if negb (Qle_bool wheel 0) then 1 else -1)) 1 19.

Module Cpp1.

(** The mouse wheel of [c1.cpp]: step, then the two range tests. *)
Definition wheel_zoom (zoom : Z) (wheel : Q) : Z :=
  if Qeq_bool wheel 0 then zoom
  else
    let zoom := zoom + (if negb (Qle_bool wheel 0) then 1 else -1) in
    let zoom := if zoom <? 1 then 1 else zoom in
    if 19 <? zoom then 19 else zoom.

End Cpp1.

Module Pan.

Local Open Scope R_scope.

(** [pixels * (degrees / (tileSize * (1 << zoom)))]: the geographic step of
    a pan by [pixels], with [degrees = 360] for the longitude and
    [degrees = 180] for the latitude.  The divisor is an [int] product;
    the division and the multiplication are taken over the real numbers. *)
Definition step (degrees pixels : R) (zoom tileSize : Z) : R :=
  pixels * (degrees / IZR (mul_int tileSize (shl_int 1 zoom))).

(** The mouse drag of [edit.cpp], lines 279-283. *)
Definition drag (lat lon dragX dragY : R) (zoom tileSize : Z) : R * R :=
  let dLon := step 360 dragX zoom tileSize in
  let dLat := step 180 (- dragY) zoom tileSize in
  (lat + dLat, lon + dLon).

(** The arrow keys of [edit.cpp], lines 253-260. *)
Definition arrows (lat lon : R) (left right up down : bool)
    (zoom tileSize : Z) : R * R :=
  let panPixels := 50 in
  let lonStep := step 360 panPixels zoom tileSize in
  let latStep := step 180 panPixels zoom tileSize in
  let lon := if left then lon - lonStep else lon in
  let lon := if right then lon + lonStep else lon in
  let lat := if up then lat + latStep else lat in
  let lat := if down then lat - latStep else lat in
  (lat, lon).

End Pan.

(** ** The smooth update of [map_visual.cpp] *)

Record MapView : Type := mkMapView {
  mapCenterLat : Q;
  mapCenterLon : Q;
  zoom : Z
}.

(** The value of the literal [1e-6]: the [double] nearest to one millionth,
    [4722366482869645 * 2^-72], which is a little less than one millionth. *)
Definition double_1e_6 : Q := 4722366482869645 # 4722366482869645213696.

(** [fabs(a - b) > 1e-6] *)
Definition apart (a b : Q) : bool :=
  negb (Qle_bool (Qabs (a - b)) double_1e_6).

(** One interpolation step of a coordinate, with [t = 0.2]. *)
Definition lerp (x target : Q) : Q :=
  if apart x target then (x + (target - x) * (2 # 10))%Q else x.

(** One step of the zoom level. *)
Definition zoom_step (zoom targetZoom : Z) : Z :=
  if zoom <? targetZoom then zoom + 1
  else if targetZoom <? zoom then zoom - 1
  else zoom.

(** Lines 215-235 of [SmoothUpdateMap]: the new view and [moved]. *)
Definition smooth_step (v : MapView) (targetLat targetLon : Q)
    (targetZoom : Z) : MapView * bool :=
  let moved := false in
  let moved := if apart (mapCenterLat v) targetLat then true else moved in
  let moved := if apart (mapCenterLon v) targetLon then true else moved in
  let moved :=
    if zoom v <? targetZoom then true
    else if targetZoom <? zoom v then true else moved in
  (mkMapView (lerp (mapCenterLat v) targetLat)
             (lerp (mapCenterLon v) targetLon)
             (zoom_step (zoom v) targetZoom),
   moved).

(** [SmoothUpdateMap]: the step, and the new composite when something
    moved.  [project lat lon zoom tileSize] stands for the global pixel
    coordinates that lines 110-114 compute for the centre. *)
Definition SmoothUpdateMap (project : Q -> Q -> Z -> Z -> Q * Q) (env : Env)
    (finalWidth finalHeight tileSize : Z)
    (composite : outcome (list byte)) (v : MapView)
    (targetLat targetLon : Q) (targetZoom : Z) (st : State)
  : outcome (list byte) * MapView * State :=
  let '(v1, moved) := smooth_step v targetLat targetLon targetZoom in
  if moved then
    let '(centerX, centerY) :=
      project (mapCenterLat v1) (mapCenterLon v1) (zoom v1) tileSize in
    let '(composite, st1) :=
      C1_cpp.CompositeMap env finalWidth finalHeight centerX centerY
                          (zoom v1) tileSize st in
    (composite, v1, st1)
  else (composite, v1, st).

(** The view after [n] frames with fixed targets. *)
Fixpoint smooth_frames (n : nat) (v : MapView) (targetLat targetLon : Q)
    (targetZoom : Z) : MapView :=
  match n with
  | O => v
  | S n' =>
      smooth_frames n' (smooth_step v targetLat targetLon targetZoom).1
                    targetLat targetLon targetZoom
  end.

(** ** The tile index helpers of [c1.cpp] *)

Module TileIndex.

Local Open Scope R_scope.

Definition LonToTileX (lon_deg : R) (zoom : Z) : Z :=
  Zfloor ((lon_deg + 180) / 360 * IZR (shl_int 1 zoom)).

Definition LatToTileY (lat_deg : R) (zoom : Z) : Z :=
  let lat_rad := lat_deg * PI / 180 in
  Zfloor ((1 - ln (tan lat_rad + 1 / cos lat_rad) / PI) / 2
          * IZR (shl_int 1 zoom)).

End TileIndex.

(** ** Downloads that a pool of calls may still make *)

(** A call that has not yet passed its download. *)
Definition to_fetch (t : Task) : nat :=
  match t with
  | Called _ _ | Fetching _ _ => 1
  | Storing _ _ | Returned _ => 0
  end.

Definition fetches_ahead (pool : list Task) : nat :=
  sum_list_with to_fetch pool.

(** * Properties *)

(** ** The cache *)

Lemma emplace_absent key pixels cache :
  cache !! key = None -> emplace key pixels cache = <[key := pixels]> cache.
Proof. intros H. unfold emplace. by rewrite H. Qed.

Lemma emplace_keeps key image k pixels cache :
  cache !! key = Some image -> emplace k pixels cache !! key = Some image.
Proof.
  intros H. unfold emplace. destruct (cache !! k) eqn:Hk; [done|].
  destruct (decide (k = key)) as [->|Hne]; [congruence|].
  by rewrite lookup_insert_ne.
Qed.

Lemma emplace_lookup_same key pixels cache :
  emplace key pixels cache !! key = Some (default pixels (cache !! key)).
Proof.
  unfold emplace. destruct (cache !! key) eqn:Hk; simpl; [done|].
  by rewrite lookup_insert_eq.
Qed.

(** C7: an image stored under a tile id is never replaced: whatever
    sequence of insertions follows, also for the same id, a lookup of that
    id still yields the image stored first. *)
Theorem cache_first_insert_wins
    (ops : list (TileKey * list byte)) (cache : gmap TileKey (list byte))
    (key : TileKey) (image : list byte) :
  cache !! key = Some image ->
  emplace_all ops cache !! key = Some image.
Proof.
  revert cache. induction ops as [|[k px] ops IH]; intros cache H; [done|].
  simpl. apply IH. by apply emplace_keeps.
Qed.

Lemma cache_first_insert_wins_witness :
  emplace_all [(mkTileKey 1 0 0, [Byte.x00]); (mkTileKey 1 1 0, [Byte.x01])]
              (emplace (mkTileKey 1 0 0) [white] ∅)
    !! mkTileKey 1 0 0 = Some [white].
Proof. apply cache_first_insert_wins. vm_compute. reflexivity. Defined.

(** The same holds along every interleaving of concurrent calls. *)
Lemma task_step_keeps env t st t' st' key image :
  task_step env t st = Some (t', st') ->
  g_tileCache st !! key = Some image ->
  g_tileCache st' !! key = Some image.
Proof.
  destruct t as [k ts|k ts|k px|px]; simpl; intros Hs Hc.
  - destruct (g_tileCache st !! k); by simplify_eq.
  - by simplify_eq.
  - simplify_eq. simpl. by apply emplace_keeps.
  - done.
Qed.

Lemma pool_steps_keep env c c' key image :
  pool_steps env c c' ->
  g_tileCache c.2 !! key = Some image ->
  g_tileCache c'.2 !! key = Some image.
Proof.
  induction 1 as [|c1 c2 c3 Hstep _ IH]; [done|].
  intros Hc. apply IH. destruct Hstep as [i t t' pool st st' _ Hs].
  simpl in *. by eapply task_step_keeps.
Qed.

(** ** The tile fetcher *)

Lemma white_is_255 : Byte.to_N white = 255%N.
Proof. reflexivity. Qed.

Lemma length_vector_fill n : length (vector_fill n) = Z.to_nat n.
Proof. apply length_replicate. Qed.

Lemma LoadAndDecodeTile_hit env tileX tileY zoom tileSize st cached :
  g_tileCache st !! mkTileKey zoom tileX tileY = Some cached ->
  LoadAndDecodeTile env tileX tileY zoom tileSize st = (cached, st).
Proof. intros H. unfold LoadAndDecodeTile. by rewrite H. Qed.

Lemma LoadAndDecodeTile_miss env tileX tileY zoom tileSize st :
  g_tileCache st !! mkTileKey zoom tileX tileY = None ->
  LoadAndDecodeTile env tileX tileY zoom tileSize st =
  let r := fetch_and_decode env (mkTileKey zoom tileX tileY) tileSize st in
  (r.1, store (mkTileKey zoom tileX tileY) r.1 r.2).
Proof. intros H. unfold LoadAndDecodeTile. by rewrite H. Qed.

(** A call caches what it returns when no other call interferes. *)
Lemma LoadAndDecodeTile_cached env tileX tileY zoom tileSize st :
  g_tileCache (LoadAndDecodeTile env tileX tileY zoom tileSize st).2
    !! mkTileKey zoom tileX tileY
  = Some (LoadAndDecodeTile env tileX tileY zoom tileSize st).1.
Proof.
  unfold LoadAndDecodeTile.
  destruct (g_tileCache st !! _) eqn:Hc; simpl; [done|].
  rewrite emplace_lookup_same, Hc. done.
Qed.

(** C2: when the download fails, or the decode of the downloaded bytes
    fails, the call still returns: its result is the fallback tile of
    [tileSize*tileSize*4] bytes, all equal to 255; the fallback is stored
    in the cache under the tile id, and a repeated request for that id is
    answered from the cache without any further network request, whatever
    the network would answer by then. *)
Theorem LoadAndDecodeTile_fallback
    (env : Env) (tileX tileY zoom tileSize : Z) (st : State) :
  g_tileCache st !! mkTileKey zoom tileX tileY = None ->
  (DownloadURL env (length (requests st)) (tile_url zoom tileX tileY) = None
   \/ exists data,
        DownloadURL env (length (requests st)) (tile_url zoom tileX tileY)
          = Some data
        /\ stbi_load_from_memory env data = None) ->
  exists st',
    LoadAndDecodeTile env tileX tileY zoom tileSize st
      = (vector_fill (tileSize * tileSize * 4), st')
    /\ length (vector_fill (tileSize * tileSize * 4))
       = Z.to_nat (tileSize * tileSize * 4)
    /\ Forall (fun b => Byte.to_N b = 255%N)
              (vector_fill (tileSize * tileSize * 4))
    /\ g_tileCache st' !! mkTileKey zoom tileX tileY
       = Some (vector_fill (tileSize * tileSize * 4))
    /\ forall env',
         LoadAndDecodeTile env' tileX tileY zoom tileSize st'
         = (vector_fill (tileSize * tileSize * 4), st').
Proof.
  intros Hmiss Hfail.
  assert (Hfd : (fetch_and_decode env (mkTileKey zoom tileX tileY) tileSize st).1
                = vector_fill (tileSize * tileSize * 4)).
  { unfold fetch_and_decode; simpl.
    destruct Hfail as [-> | (data & -> & ->)]; reflexivity. }
  eexists. rewrite LoadAndDecodeTile_miss by done. cbv zeta. rewrite Hfd.
  split; [reflexivity|].
  split; [apply length_vector_fill|].
  split; [apply Forall_replicate, white_is_255|].
  assert (Hc : emplace (mkTileKey zoom tileX tileY)
                 (vector_fill (tileSize * tileSize * 4)) (g_tileCache st)
               !! mkTileKey zoom tileX tileY
               = Some (vector_fill (tileSize * tileSize * 4))).
  { rewrite emplace_lookup_same, Hmiss. done. }
  split; [exact Hc|].
  intros env'. apply LoadAndDecodeTile_hit. exact Hc.
Qed.

Lemma LoadAndDecodeTile_fallback_witness :
  exists st',
    LoadAndDecodeTile env_garbage 12345 6789 16 2 empty_state
      = (vector_fill (2 * 2 * 4), st')
    /\ length (vector_fill (2 * 2 * 4)) = Z.to_nat (2 * 2 * 4)
    /\ Forall (fun b => Byte.to_N b = 255%N) (vector_fill (2 * 2 * 4))
    /\ g_tileCache st' !! mkTileKey 16 12345 6789
       = Some (vector_fill (2 * 2 * 4))
    /\ forall env',
         LoadAndDecodeTile env' 12345 6789 16 2 st'
         = (vector_fill (2 * 2 * 4), st').
Proof.
  apply LoadAndDecodeTile_fallback.
  - reflexivity.
  - right. exists []. split; reflexivity.
Defined.

(** What a successful decode yields is returned as it is, whatever its
    dimensions. *)
Lemma LoadAndDecodeTile_decoded env tileX tileY zoom tileSize st data w h img :
  g_tileCache st !! mkTileKey zoom tileX tileY = None ->
  DownloadURL env (length (requests st)) (tile_url zoom tileX tileY)
    = Some data ->
  stbi_load_from_memory env data = Some (w, h, img) ->
  length img = Z.to_nat (w * h * 4) ->
  (LoadAndDecodeTile env tileX tileY zoom tileSize st).1 = img.
Proof.
  intros Hmiss Hd Hdec Hlen. rewrite LoadAndDecodeTile_miss by done.
  unfold fetch_and_decode; simpl. rewrite Hd, Hdec.
  apply take_ge. lia.
Qed.

(** C3: with [tileSize = 256] and a tile that decodes to 128x128 pixels the
    call returns, and caches, a buffer of [128*128*4 = 65536] bytes, not of
    [256*256*4 = 262144] bytes: the decoded dimensions are never compared
    with [tileSize]. *)
Theorem LoadAndDecodeTile_undersized :
  let r := LoadAndDecodeTile env_128 0 0 1 256 empty_state in
  Z.of_nat (length r.1) = 128 * 128 * 4
  /\ Z.of_nat (length r.1) <> 256 * 256 * 4
  /\ (fun px => Z.of_nat (length px)) <$> g_tileCache r.2 !! mkTileKey 1 0 0
     = Some (128 * 128 * 4).
Proof. vm_compute. repeat split. discriminate. Qed.

Lemma pool_step_at env i t t' pool pool' st st' :
  pool !! i = Some t ->
  task_step env t st = Some (t', st') ->
  pool' = <[i := t']> pool ->
  pool_step env (pool, st) (pool', st').
Proof. intros Hi Hs ->. by econstructor. Qed.

Lemma pool_steps_one env c c' : pool_step env c c' -> pool_steps env c c'.
Proof. intros H. eapply pool_steps_cons; [exact H|apply pool_steps_refl]. Qed.

(** A call is the three atomic steps of its task run back to back. *)
Lemma LoadAndDecodeTile_as_task env tileX tileY zoom tileSize st :
  let r := LoadAndDecodeTile env tileX tileY zoom tileSize st in
  pool_steps env ([Called (mkTileKey zoom tileX tileY) tileSize], st)
             ([Returned r.1], r.2).
Proof.
  unfold LoadAndDecodeTile.
  destruct (g_tileCache st !! _) eqn:Hc; cbv zeta.
  - apply pool_steps_one.
    eapply (pool_step_at env 0%nat); [reflexivity| |reflexivity].
    simpl. by rewrite Hc.
  - destruct (fetch_and_decode env _ tileSize st) as [px st1] eqn:Hf.
    eapply pool_steps_cons.
    { eapply (pool_step_at env 0%nat); [reflexivity| |reflexivity].
      simpl. by rewrite Hc. }
    eapply pool_steps_cons.
    { eapply (pool_step_at env 0%nat); [reflexivity| |reflexivity].
      unfold task_step. by rewrite Hf. }
    apply pool_steps_one.
    eapply (pool_step_at env 0%nat); reflexivity.
Qed.

(** ** Concurrent fetches *)

(** Two concurrent first-time calls for one tile both miss, are both in
    flight at once, and both send the request. *)
Lemma concurrent_calls_both_fetch :
  let key := mkTileKey 16 12345 6789 in
  exists c1 c2,
    pool_steps env_offline ([Called key 256; Called key 256], empty_state) c1
    /\ in_flight_count key c1.1 = 2%nat
    /\ pool_steps env_offline c1 c2
    /\ requests c2.2 = [tile_url 16 12345 6789; tile_url 16 12345 6789].
Proof.
  intros key.
  exists ([Fetching key 256; Fetching key 256], empty_state).
  eexists (_, _).
  split.
  { eapply pool_steps_cons.
    { eapply (pool_step_at _ 0%nat); reflexivity. }
    apply pool_steps_one. eapply (pool_step_at _ 1%nat); reflexivity. }
  split; [reflexivity|].
  split.
  { eapply pool_steps_cons.
    { eapply (pool_step_at _ 0%nat); reflexivity. }
    apply pool_steps_one. eapply (pool_step_at _ 1%nat); reflexivity. }
  reflexivity.
Qed.

Lemma in_flight_count_insert key pool i t t' :
  pool !! i = Some t ->
  (in_flight key t' = true -> in_flight key t = true) ->
  (in_flight_count key (<[i := t']> pool) <= in_flight_count key pool)%nat.
Proof.
  intros Hi Himp. unfold in_flight_count.
  rewrite <- (take_drop_middle pool i t Hi) at 2.
  rewrite insert_take_drop by (by eapply lookup_lt_Some).
  rewrite !filter_app, !filter_cons, !length_app.
  destruct (decide (in_flight key t' = true)) as [Ht'|Ht'];
    destruct (decide (in_flight key t = true)) as [Ht|Ht]; simpl; try lia.
  by destruct Ht; apply Himp.
Qed.

Lemma task_step_no_new_fetch env t st t' st' key image :
  g_tileCache st !! key = Some image ->
  task_step env t st = Some (t', st') ->
  in_flight key t' = true -> in_flight key t = true.
Proof.
  intros Hc Hs. destruct t as [k ts|k ts|k px|px]; simpl in *.
  - destruct (g_tileCache st !! k) eqn:Hk; simplify_eq; simpl; [done|].
    intros Heq%bool_decide_eq_true. congruence.
  - by simplify_eq.
  - simplify_eq. done.
  - done.
Qed.

(** C6, as the code has it: once a tile id is in the cache, no
    interleaving of concurrent calls starts a further fetch-and-decode for
    it: the number of operations in flight for that id never grows. *)
Theorem no_new_fetch_once_cached
    (env : Env) (c c' : list Task * State) (key : TileKey)
    (image : list byte) :
  pool_steps env c c' ->
  g_tileCache c.2 !! key = Some image ->
  (in_flight_count key c'.1 <= in_flight_count key c.1)%nat.
Proof.
  induction 1 as [|c1 c2 c3 Hstep Hsteps IH]; intros Hc; [done|].
  assert (g_tileCache c2.2 !! key = Some image) as Hc2.
  { eapply (pool_steps_keep env c1 c2); [|done].
    eapply pool_steps_cons; [done|apply pool_steps_refl]. }
  etrans; [by apply IH|].
  destruct Hstep as [i t t' pool st st' Hi Hs]. simpl in *.
  apply (in_flight_count_insert key pool i t t' Hi).
  exact (task_step_no_new_fetch env t st t' st' key image Hc Hs).
Qed.

Lemma no_new_fetch_once_cached_witness :
  let key := mkTileKey 1 0 0 in
  let st := mkState (<[key := [white]]> ∅) [] in
  (in_flight_count key [Returned [white]; Called key 256]
   <= in_flight_count key [Called key 256; Called key 256])%nat.
Proof.
  intros key st.
  apply (no_new_fetch_once_cached env_offline
           ([Called key 256; Called key 256], st)
           ([Returned [white]; Called key 256], st) key [white]).
  - apply pool_steps_one. eapply (pool_step_at _ 0%nat); reflexivity.
  - vm_compute. reflexivity.
Defined.

(** Calls made one after the other request a tile from the network at most
    once. *)
Lemma sequential_calls_fetch_once env env' tileX tileY zoom tileSize st :
  let r1 := LoadAndDecodeTile env tileX tileY zoom tileSize st in
  LoadAndDecodeTile env' tileX tileY zoom tileSize r1.2 = r1.
Proof.
  cbv zeta. erewrite LoadAndDecodeTile_hit.
  - symmetry. apply surjective_pairing.
  - apply LoadAndDecodeTile_cached.
Qed.

(** ** Placement of tiles *)

Lemma trunc_nonneg x : (0 <= x)%Q -> Dbl.trunc x = Qfloor x.
Proof.
  intros H. unfold Dbl.trunc.
  destruct (Qle_bool 0 x) eqn:Hb; [done|].
  apply Qle_bool_iff in H. congruence.
Qed.

Lemma Qdiv_nonneg x y : (0 <= x)%Q -> (0 < y)%Q -> (0 <= x / y)%Q.
Proof.
  intros Hx Hy. unfold Qdiv. apply Qmult_le_0_compat; [done|].
  apply Qinv_le_0_compat. by apply Qlt_le_weak.
Qed.

(** For a viewport whose corner has non-negative global coordinates the
    remainder of [fmod] is the remainder of floor division, and the
    placement is the formula of the specification, rounded down to a
    pixel. *)
Lemma tile_offset_nonneg_topLeft t tileSize topLeft :
  (0 <= topLeft)%Q -> 0 < tileSize ->
  tile_offset t tileSize topLeft = Qfloor (spec_offset t tileSize topLeft).
Proof.
  intros Htl Hts. unfold tile_offset, spec_offset, Dbl.fmod, floor_mod,
    Dbl.floor, Dbl.of_int.
  rewrite trunc_nonneg; [done|].
  apply Qdiv_nonneg; [done|].
  change 0%Q with (inject_Z 0). by rewrite <- Zlt_Qlt.
Qed.

(** C1: at zoom 1 with 256-pixel tiles, a 1000x1000 viewport centred on
    global pixel (256, 256) (longitude 0, latitude 0) has its corner at
    [-244].  The grid starts at tile [-1], computed with [floor], but the
    first tile column is placed at [+244], computed with [fmod], where the
    floor-division formula of the specification gives [-12]. *)
Theorem tile_offset_negative_topLeft :
  let g := grid 1000 1000 256 256 256 in
  (topLeftX g == -244)%Q
  /\ startTileX g = -1
  /\ tile_offset 0 256 (topLeftX g) = 244
  /\ (spec_offset 0 256 (topLeftX g) == -12)%Q.
Proof. vm_compute. repeat split. Qed.

(** The centre used above is the projection of longitude 0, latitude 0. *)
Lemma projection_of_origin (zoom tileSize : Z) :
  (Projection.centerX 0 zoom tileSize
   = / 2 * Projection.n zoom * IZR tileSize)%R
  /\ (Projection.centerY 0 zoom tileSize
      = / 2 * Projection.n zoom * IZR tileSize)%R.
Proof.
  unfold Projection.centerX, Projection.centerY. split.
  - lra.
  - replace (0 * PI / 180)%R with 0%R by lra.
    rewrite tan_0, cos_0.
    replace (0 + 1 / 1)%R with 1%R by lra.
    rewrite ln_1. unfold Rdiv. rewrite Rmult_0_l. lra.
Qed.

Lemma projection_of_origin_zoom1 :
  Projection.centerX 0 1 256 = 256%R /\ Projection.centerY 0 1 256 = 256%R.
Proof.
  destruct (projection_of_origin 1 256) as [-> ->].
  unfold Projection.n. simpl. split; lra.
Qed.

(** ** Loops and [memcpy] *)

Lemma foldM_skip {A B} (body : B -> A -> outcome B) l b :
  (forall a b', a ∈ l -> body b' a = Ok b') ->
  foldM body l b = Ok b.
Proof.
  induction l as [|a l IH]; intros H; simpl; [done|].
  rewrite H by left. simpl. apply IH. intros a' b' Ha'. apply H. by right.
Qed.

Lemma foldM_no_write_fault {A B} (P : B -> Prop)
    (body : B -> A -> outcome B) l b :
  P b ->
  (forall a b', a ∈ l -> P b' -> no_write_fault P (body b' a)) ->
  no_write_fault P (foldM body l b).
Proof.
  revert b. induction l as [|a l IH]; intros b Hb H; simpl; [done|].
  pose proof (H a b (list_elem_of_here _ _) Hb) as Ha.
  destruct (body b a) as [b1| |]; simpl in *; try done.
  apply IH; [done|]. intros a' b' Ha'. apply H. by right.
Qed.

Lemma memcpy_inv dst dstIdx src srcIdx n out :
  memcpy dst dstIdx src srcIdx n = Ok out ->
  0 <= srcIdx /\ srcIdx + n <= Z.of_nat (length src)
  /\ 0 <= dstIdx /\ dstIdx + n <= Z.of_nat (length dst)
  /\ out = take (Z.to_nat dstIdx) dst
           ++ take (Z.to_nat n) (drop (Z.to_nat srcIdx) src)
           ++ drop (Z.to_nat (dstIdx + n)) dst.
Proof.
  unfold memcpy.
  destruct (srcIdx <? 0) eqn:E1; [done|].
  destruct (Z.of_nat (length src) <? srcIdx + n) eqn:E2; [done|].
  destruct (dstIdx <? 0) eqn:E3; [done|].
  destruct (Z.of_nat (length dst) <? dstIdx + n) eqn:E4; [done|].
  simpl. intros [= <-].
  apply Z.ltb_ge in E1, E2, E3, E4. done.
Qed.

Lemma memcpy_in_bounds dst dstIdx src srcIdx n :
  0 <= srcIdx -> srcIdx + n <= Z.of_nat (length src) ->
  0 <= dstIdx -> dstIdx + n <= Z.of_nat (length dst) ->
  memcpy dst dstIdx src srcIdx n
  = Ok (take (Z.to_nat dstIdx) dst
        ++ take (Z.to_nat n) (drop (Z.to_nat srcIdx) src)
        ++ drop (Z.to_nat (dstIdx + n)) dst).
Proof.
  intros H1 H2 H3 H4. unfold memcpy.
  apply Z.ltb_ge in H1, H2, H3, H4. by rewrite H1, H2, H3, H4.
Qed.

Lemma memcpy_write_in_bounds dst dstIdx src srcIdx n :
  0 <= dstIdx -> dstIdx + n <= Z.of_nat (length dst) ->
  memcpy dst dstIdx src srcIdx n <> WriteOutOfBounds.
Proof.
  intros H3 H4. unfold memcpy.
  apply Z.ltb_ge in H3, H4. rewrite H3, H4.
  by destruct (_ || _).
Qed.

Lemma memcpy_length dst dstIdx src srcIdx n out :
  0 <= n ->
  memcpy dst dstIdx src srcIdx n = Ok out -> length out = length dst.
Proof.
  intros Hn (H1 & H2 & H3 & H4 & ->)%memcpy_inv.
  rewrite !length_app, !length_take, !length_drop. lia.
Qed.

Lemma memcpy_lookup_outside dst dstIdx src srcIdx n out (k : nat) :
  0 <= n ->
  memcpy dst dstIdx src srcIdx n = Ok out ->
  ~ (dstIdx <= Z.of_nat k < dstIdx + n) ->
  out !! k = dst !! k.
Proof.
  intros Hn (H1 & H2 & H3 & H4 & ->)%memcpy_inv Hk.
  destruct (decide (Z.of_nat k < dstIdx)) as [Hlt|Hge].
  - rewrite lookup_app_l by (rewrite length_take; lia).
    apply lookup_take_lt. lia.
  - rewrite lookup_app_r by (rewrite length_take; lia).
    rewrite lookup_app_r by (rewrite !length_take, length_drop; lia).
    rewrite lookup_drop. f_equal.
    rewrite !length_take, length_drop. lia.
Qed.

Lemma memcpy_lookup_inside dst dstIdx src srcIdx n out (k : nat) :
  memcpy dst dstIdx src srcIdx n = Ok out ->
  dstIdx <= Z.of_nat k < dstIdx + n ->
  out !! k = src !! Z.to_nat (srcIdx + (Z.of_nat k - dstIdx)).
Proof.
  intros (H1 & H2 & H3 & H4 & ->)%memcpy_inv Hk.
  rewrite lookup_app_r by (rewrite length_take; lia).
  rewrite lookup_app_l by (rewrite !length_take, length_drop; lia).
  rewrite lookup_take_lt by (rewrite length_take; lia).
  rewrite lookup_drop. f_equal. rewrite length_take. lia.
Qed.

(** ** Clipping *)

Lemma pixel_index_inj W x y x' y' :
  0 <= x < W -> 0 <= x' < W -> y * W + x = y' * W + x' -> x = x' /\ y = y'.
Proof.
  intros Hx Hx' Heq.
  assert (y = y') as -> by nia. lia.
Qed.

Lemma pixel_in_raster W H x y :
  0 <= x < W -> 0 <= y < H ->
  0 <= (y * W + x) * 4 /\ (y * W + x) * 4 + 4 <= W * H * 4.
Proof. intros Hx Hy. nia. Qed.

Lemma no_write_fault_Ok {A} (P : A -> Prop) o :
  no_write_fault P o <->
  o <> WriteOutOfBounds /\ forall a, o = Ok a -> P a.
Proof.
  destruct o; simpl; split.
  - intros H; split; [done|]. by intros a' [= <-].
  - intros [_ H]. by apply H.
  - done.
  - done.
  - done.
  - by intros [H _].
Qed.

(** The blit cannot fault on the destination; when it returns, the raster
    has kept its size and every byte of a pixel outside of the tile's
    placement square. *)
Lemma blit_tile_no_write_fault
    (finalWidth finalHeight tileSize offsetX offsetY : Z)
    (pixels finalImage : list byte) :
  0 <= finalWidth -> 0 <= finalHeight ->
  length finalImage = Z.to_nat (finalWidth * finalHeight * 4) ->
  no_write_fault
    (fun out =>
       length out = length finalImage
       /\ forall x y c,
            0 <= x < finalWidth -> 0 <= y < finalHeight -> 0 <= c < 4 ->
            ~ (offsetX <= x < offsetX + tileSize
               /\ offsetY <= y < offsetY + tileSize) ->
            out !! byte_index finalWidth x y c
            = finalImage !! byte_index finalWidth x y c)
    (blit_tile finalWidth finalHeight tileSize offsetX offsetY
               pixels finalImage).
Proof.
  intros HW HH Hlen.
  unfold blit_tile, for_loop.
  apply foldM_no_write_fault; [by split|].
  intros j b Hj Hb. apply elem_of_seqZ in Hj.
  destruct ((offsetY + j <? 0) || (finalHeight <=? offsetY + j)) eqn:Gy;
    [exact Hb|].
  apply orb_false_iff in Gy as [Gy1%Z.ltb_ge Gy2%Z.leb_gt].
  apply foldM_no_write_fault; [exact Hb|].
  intros i b' Hi [Hb'len Hb']. apply elem_of_seqZ in Hi.
  destruct ((offsetX + i <? 0) || (finalWidth <=? offsetX + i)) eqn:Gx;
    [by split|].
  apply orb_false_iff in Gx as [Gx1%Z.ltb_ge Gx2%Z.leb_gt].
  destruct (pixel_in_raster finalWidth finalHeight (offsetX + i)
              (offsetY + j)) as [Hlo Hhi]; [lia..|].
  apply no_write_fault_Ok. split.
  { apply memcpy_write_in_bounds; lia. }
  intros out Hout. split.
  { rewrite <- Hb'len. eapply memcpy_length; [|exact Hout]. lia. }
  intros x y c Hx Hy Hc Hrect.
  rewrite <- Hb' by done.
  eapply memcpy_lookup_outside; [|exact Hout|]; [lia|].
  unfold byte_index. intros Hk.
  destruct (pixel_in_raster finalWidth finalHeight x y) as [Hlo' Hhi'];
    [lia..|].
  rewrite Z2Nat.id in Hk by lia.
  assert ((offsetY + j) * finalWidth + (offsetX + i) = y * finalWidth + x)
    as Heq by lia.
  apply pixel_index_inj in Heq as [Hx' Hy']; [|lia..].
  apply Hrect. lia.
Qed.

(** C4: a blit never writes outside of the raster: it cannot fault on the
    destination, the raster keeps its size, every byte of a pixel that is
    not under the tile's placement square is left as it was, and a tile
    whose placement square lies wholly outside of the raster changes
    nothing at all. *)
Theorem blit_tile_clipped
    (finalWidth finalHeight tileSize offsetX offsetY : Z)
    (pixels finalImage : list byte) :
  0 <= finalWidth -> 0 <= finalHeight ->
  length finalImage = Z.to_nat (finalWidth * finalHeight * 4) ->
  blit_tile finalWidth finalHeight tileSize offsetX offsetY pixels finalImage
    <> WriteOutOfBounds
  /\ (forall out,
        blit_tile finalWidth finalHeight tileSize offsetX offsetY
                  pixels finalImage = Ok out ->
        length out = length finalImage
        /\ forall x y c,
             0 <= x < finalWidth -> 0 <= y < finalHeight -> 0 <= c < 4 ->
             ~ (offsetX <= x < offsetX + tileSize
                /\ offsetY <= y < offsetY + tileSize) ->
             out !! byte_index finalWidth x y c
             = finalImage !! byte_index finalWidth x y c)
  /\ (offsetX + tileSize <= 0 \/ finalWidth <= offsetX
      \/ offsetY + tileSize <= 0 \/ finalHeight <= offsetY ->
      blit_tile finalWidth finalHeight tileSize offsetX offsetY
                pixels finalImage = Ok finalImage).
Proof.
  intros HW HH Hlen.
  pose proof (blit_tile_no_write_fault finalWidth finalHeight tileSize
                offsetX offsetY pixels finalImage HW HH Hlen) as HP.
  apply no_write_fault_Ok in HP as [HP1 HP2].
  split; [exact HP1|]. split; [exact HP2|].
  intros Hout. unfold blit_tile, for_loop.
  apply foldM_skip. intros j b Hj. apply elem_of_seqZ in Hj.
  destruct ((offsetY + j <? 0) || (finalHeight <=? offsetY + j)) eqn:Gy;
    [done|].
  apply orb_false_iff in Gy as [Gy1%Z.ltb_ge Gy2%Z.leb_gt].
  apply foldM_skip. intros i b' Hi. apply elem_of_seqZ in Hi.
  destruct ((offsetX + i <? 0) || (finalWidth <=? offsetX + i)) eqn:Gx;
    [done|].
  apply orb_false_iff in Gx as [Gx1%Z.ltb_ge Gx2%Z.leb_gt].
  lia.
Qed.

(** The same for a whole composite: whatever the tiles are, no copy of the
    loop over the futures writes outside of the raster. *)
Lemma CompositeMap_never_writes_outside env finalWidth finalHeight
    centerX centerY zoom tileSize st :
  0 <= finalWidth -> 0 <= finalHeight ->
  no_write_fault
    (fun raster => length raster = Z.to_nat (finalWidth * finalHeight * 4))
    (CompositeMap env finalWidth finalHeight centerX centerY zoom tileSize
                  st).1.
Proof.
  intros HW HH. unfold CompositeMap.
  destruct (launch_tiles env zoom tileSize _ st) as [futures st1].
  cbn [fst]. unfold composite_tiles, for_loop.
  apply foldM_no_write_fault; [apply length_vector_fill|].
  intros idx b _ Hb.
  destruct (futures !! Z.to_nat idx) as [pixels|]; [|done].
  pose proof (blit_tile_no_write_fault finalWidth finalHeight tileSize
                (tile_offset (Z.rem idx (numTilesX
                   (grid finalWidth finalHeight centerX centerY tileSize)))
                   tileSize
                   (topLeftX
                      (grid finalWidth finalHeight centerX centerY tileSize)))
                (tile_offset (Z.quot idx (numTilesX
                   (grid finalWidth finalHeight centerX centerY tileSize)))
                   tileSize
                   (topLeftY
                      (grid finalWidth finalHeight centerX centerY tileSize)))
                pixels b HW HH Hb) as HP.
  destruct (blit_tile _ _ _ _ _ pixels b); simpl in *; [|done..].
  destruct HP as [HP _]. congruence.
Qed.

Lemma blit_tile_clipped_witness :
  blit_tile 2 2 2 (-1) 0 numbered_2x2 (vector_fill 16) <> WriteOutOfBounds
  /\ blit_tile 2 2 2 5 0 numbered_2x2 (vector_fill 16)
     = Ok (vector_fill 16).
Proof.
  split.
  - apply (blit_tile_clipped 2 2 2 (-1) 0 numbered_2x2 (vector_fill 16));
      [lia|lia|reflexivity].
  - apply (blit_tile_clipped 2 2 2 5 0 numbered_2x2 (vector_fill 16));
      [lia|lia|reflexivity|lia].
Defined.

(** ** Repeated composites *)

Lemma elem_of_grid_cells g tx ty :
  (tx, ty) ∈ grid_cells g <->
  0 <= tx < numTilesX g /\ 0 <= ty < numTilesY g.
Proof.
  unfold grid_cells. rewrite list_elem_of_bind. split.
  - intros (y & Hin & Hy). apply list_elem_of_bind in Hin as (x & Hin & Hx).
    apply list_elem_of_singleton in Hin. apply elem_of_seqZ in Hx, Hy.
    simplify_eq. lia.
  - intros [Hx Hy]. exists ty. split; [|apply elem_of_seqZ; lia].
    apply list_elem_of_bind. exists tx.
    split; [by apply list_elem_of_singleton|apply elem_of_seqZ; lia].
Qed.

Lemma LoadAndDecodeTile_keeps env tileX tileY zoom tileSize st key image :
  g_tileCache st !! key = Some image ->
  g_tileCache (LoadAndDecodeTile env tileX tileY zoom tileSize st).2 !! key
  = Some image.
Proof.
  intros H. unfold LoadAndDecodeTile.
  destruct (g_tileCache st !! mkTileKey _ _ _); simpl; [done|].
  by apply emplace_keeps.
Qed.

Section Launch.

Variables (zoom tileSize : Z) (g : Grid).

Let load (env : Env) : Z * Z -> State -> list byte * State :=
  fun '(tx, ty) =>
    LoadAndDecodeTile env (startTileX g + tx) (startTileY g + ty)
                      zoom tileSize.

(** When the cache holds [futures], cell by cell, the fetch loop returns
    [futures] and leaves the state as it is. *)
Lemma mapS_load_hits env cells futures st :
  Forall2 (fun cell px => g_tileCache st !! cell_key zoom g cell = Some px)
          cells futures ->
  mapS (load env) cells st = (futures, st).
Proof.
  induction 1 as [|[tx ty] px cells futures Hhd _ IH]; simpl; [done|].
  unfold cell_key in Hhd; simpl in Hhd.
  rewrite (LoadAndDecodeTile_hit _ _ _ _ _ _ _ Hhd). by rewrite IH.
Qed.

(** After the fetch loop the cache holds what the loop returned, and it has
    kept every entry it had. *)
Lemma mapS_load_caches env cells st :
  Forall2 (fun cell px =>
             g_tileCache (mapS (load env) cells st).2
               !! cell_key zoom g cell = Some px)
          cells (mapS (load env) cells st).1
  /\ forall key image,
       g_tileCache st !! key = Some image ->
       g_tileCache (mapS (load env) cells st).2 !! key = Some image.
Proof.
  revert st. induction cells as [|[tx ty] cells IH]; intros st; simpl.
  { split; [constructor|done]. }
  destruct (LoadAndDecodeTile env _ _ zoom tileSize st) as [px st1] eqn:Hl.
  destruct (IH st1) as [IH1 IH2].
  destruct (mapS (load env) cells st1) as [pxs st2]; simpl in *.
  assert (Hkeep : forall key image,
             g_tileCache st !! key = Some image ->
             g_tileCache st2 !! key = Some image).
  { intros key image Hk. apply IH2.
    pose proof (LoadAndDecodeTile_keeps env (startTileX g + tx)
                  (startTileY g + ty) zoom tileSize st key image Hk) as Hk'.
    by rewrite Hl in Hk'. }
  split; [|exact Hkeep].
  constructor; [|exact IH1].
  apply IH2. unfold cell_key; simpl.
  pose proof (LoadAndDecodeTile_cached env (startTileX g + tx)
                (startTileY g + ty) zoom tileSize st) as Hc.
  by rewrite Hl in Hc.
Qed.

Lemma warm_futures st :
  warm zoom g st ->
  exists futures,
    Forall2 (fun cell px => g_tileCache st !! cell_key zoom g cell = Some px)
            (grid_cells g) futures.
Proof.
  intros Hw.
  assert (H : Forall (fun cell =>
                        is_Some (g_tileCache st !! cell_key zoom g cell))
                     (grid_cells g)).
  { apply Forall_forall. intros [tx ty] Hin.
    apply elem_of_grid_cells in Hin as [Hx Hy]. by apply Hw. }
  induction H as [|cell cells [px Hpx] _ (futures & IH)].
  - exists []. constructor.
  - exists (px :: futures). by constructor.
Qed.

Lemma launch_tiles_hits env futures st :
  Forall2 (fun cell px => g_tileCache st !! cell_key zoom g cell = Some px)
          (grid_cells g) futures ->
  launch_tiles env zoom tileSize g st = (futures, st).
Proof. apply mapS_load_hits. Qed.

Lemma launch_tiles_caches env st :
  Forall2 (fun cell px =>
             g_tileCache (launch_tiles env zoom tileSize g st).2
               !! cell_key zoom g cell = Some px)
          (grid_cells g) (launch_tiles env zoom tileSize g st).1.
Proof. apply mapS_load_caches. Qed.

End Launch.

(** With a warm cache a composite is computed from the cache alone. *)
Lemma CompositeMap_warm env env' finalWidth finalHeight centerX centerY
    zoom tileSize st :
  warm zoom (grid finalWidth finalHeight centerX centerY tileSize) st ->
  (CompositeMap env finalWidth finalHeight centerX centerY zoom tileSize st).2
    = st
  /\ CompositeMap env' finalWidth finalHeight centerX centerY zoom tileSize st
     = CompositeMap env finalWidth finalHeight centerX centerY zoom tileSize
         st.
Proof.
  intros (futures & Hf)%warm_futures. unfold CompositeMap.
  rewrite (launch_tiles_hits _ _ _ env _ _ Hf).
  rewrite (launch_tiles_hits _ _ _ env' _ _ Hf). done.
Qed.

(** With a warm cache, two composites with identical arguments have the
    same outcome, and the second one sends no request to the network (nor
    does the first), also when the network would by then answer
    differently. *)
Lemma CompositeMap_warm_idempotent
    (env env' : Env) (finalWidth finalHeight : Z) (centerX centerY : Q)
    (zoom tileSize : Z) (st : State) :
  warm zoom (grid finalWidth finalHeight centerX centerY tileSize) st ->
  let first :=
    CompositeMap env finalWidth finalHeight centerX centerY zoom tileSize st in
  let second :=
    CompositeMap env' finalWidth finalHeight centerX centerY zoom tileSize
                 first.2 in
  second.1 = first.1
  /\ requests second.2 = requests first.2
  /\ requests first.2 = requests st.
Proof.
  intros Hw first second. subst first second.
  destruct (CompositeMap_warm env env' finalWidth finalHeight centerX centerY
              zoom tileSize st Hw) as [Hst Heq].
  rewrite Hst, Heq, Hst. done.
Qed.

(** Also from a cold cache the first composite warms the cache for its own
    grid, so that a second one repeats its raster without any request. *)
Lemma CompositeMap_twice env env' finalWidth finalHeight centerX centerY
    zoom tileSize st :
  let first :=
    CompositeMap env finalWidth finalHeight centerX centerY zoom tileSize st in
  CompositeMap env' finalWidth finalHeight centerX centerY zoom tileSize
               first.2 = first.
Proof.
  cbv zeta. unfold CompositeMap.
  pose proof (launch_tiles_caches zoom tileSize
                (grid finalWidth finalHeight centerX centerY tileSize)
                env st) as Hc.
  destruct (launch_tiles env zoom tileSize _ st) as [futures st1]; simpl in *.
  by rewrite (launch_tiles_hits _ _ _ env' _ _ Hc).
Qed.

(** A warm cache for the 2x2 grid of the zoom-1 world. *)
Lemma warm_after_first_composite :
  warm 1 (grid 2 2 2 2 2) (CompositeMap env_2x2 2 2 2 2 1 2 empty_state).2.
Proof.
  intros tx ty Hx Hy.
  change (numTilesX _) with 2 in Hx. change (numTilesY _) with 2 in Hy.
  assert (tx = 0 \/ tx = 1) as [-> | ->] by lia;
    assert (ty = 0 \/ ty = 1) as [-> | ->] by lia;
    vm_compute; eexists; reflexivity.
Qed.

Lemma CompositeMap_warm_idempotent_witness :
  let st := (CompositeMap env_2x2 2 2 2 2 1 2 empty_state).2 in
  let first := CompositeMap env_2x2 2 2 2 2 1 2 st in
  let second := CompositeMap env_offline 2 2 2 2 1 2 first.2 in
  second.1 = first.1
  /\ requests second.2 = requests first.2
  /\ requests first.2 = requests st.
Proof.
  intros st.
  apply (CompositeMap_warm_idempotent env_2x2 env_offline 2 2 2 2 1 2 st).
  apply warm_after_first_composite.
Defined.

(** The cache that a first composite leaves when every tile decodes to a
    single pixel is warm for the grid. *)
Lemma warm_with_short_tiles :
  warm 1 (grid 2 2 2 2 2) (CompositeMap env_1x1 2 2 2 2 1 2 empty_state).2.
Proof.
  intros tx ty Hx Hy.
  change (numTilesX _) with 2 in Hx. change (numTilesY _) with 2 in Hy.
  assert (tx = 0 \/ tx = 1) as [-> | ->] by lia;
    assert (ty = 0 \/ ty = 1) as [-> | ->] by lia;
    vm_compute; eexists; reflexivity.
Qed.

(** C5: the cache that a first composite leaves when every tile decodes to
    a single pixel (with [tileSize = 2]) holds an entry for every tile of
    the grid, each a copy of four bytes.  Two further composites with the
    same arguments send no request, but neither returns a raster: each
    copies the four-byte entries out of the cache and its blit reads them
    at byte offset 12, past their end. *)
Theorem CompositeMap_warm_short_tiles :
  let st := (CompositeMap env_1x1 2 2 2 2 1 2 empty_state).2 in
  let first := CompositeMap env_1x1 2 2 2 2 1 2 st in
  let second := CompositeMap env_1x1 2 2 2 2 1 2 first.2 in
  warm 1 (grid 2 2 2 2 2) st
  /\ requests first.2 = requests st
  /\ requests second.2 = requests st
  /\ first.1 = ReadOutOfBounds
  /\ second.1 = ReadOutOfBounds.
Proof.
  split; [exact warm_with_short_tiles|].
  repeat split; vm_compute; reflexivity.
Qed.

(** ** Monotonicity of the projection *)

Section Mercator.

Local Open Scope R_scope.

Lemma frac_lt (p q r s : R) :
  0 < q -> 0 < s -> p * s < r * q -> p / q < r / s.
Proof.
  intros Hq Hs H.
  apply (Rmult_lt_reg_r (q * s)); [nra|].
  replace (p / q * (q * s)) with (p * s) by (field; lra).
  replace (r / s * (q * s)) with (r * q) by (field; lra).
  exact H.
Qed.

Lemma sin_gt_minus_1 x : - (PI / 2) < x -> x < PI / 2 -> -1 < sin x.
Proof.
  intros H1 H2.
  replace (-1) with (sin (- (PI / 2))) by (rewrite sin_neg, sin_PI2; lra).
  apply sin_increasing_1; lra.
Qed.

Lemma sin_lt_1 x : - (PI / 2) < x -> x < PI / 2 -> sin x < 1.
Proof.
  intros H1 H2. rewrite <- sin_PI2.
  apply sin_increasing_1; lra.
Qed.

(** The argument of the logarithm, [tan x + 1/cos x], in its two forms. *)
Lemma mercator_arg_plus x :
  0 < cos x -> tan x + 1 / cos x = (1 + sin x) / cos x.
Proof. intros Hc. unfold tan. field. lra. Qed.

Lemma mercator_arg_minus x :
  0 < cos x -> sin x < 1 -> tan x + 1 / cos x = cos x / (1 - sin x).
Proof.
  intros Hc Hs. rewrite mercator_arg_plus by done.
  pose proof (sin2_cos2 x) as H. unfold Rsqr in H.
  apply (Rmult_eq_reg_r (cos x * (1 - sin x))); [|nra].
  replace ((1 + sin x) / cos x * (cos x * (1 - sin x)))
    with ((1 + sin x) * (1 - sin x)) by (field; lra).
  replace (cos x / (1 - sin x) * (cos x * (1 - sin x)))
    with (cos x * cos x) by (field; lra).
  nra.
Qed.

Lemma mercator_arg_pos x :
  - (PI / 2) < x -> x < PI / 2 -> 0 < tan x + 1 / cos x.
Proof.
  intros H1 H2. pose proof (cos_gt_0 x H1 H2) as Hc.
  pose proof (sin_gt_minus_1 x H1 H2) as Hs.
  rewrite mercator_arg_plus by done.
  apply Rdiv_lt_0_compat; lra.
Qed.

Lemma mercator_arg_increasing_north a b :
  0 <= a -> a < b -> b < PI / 2 ->
  tan a + 1 / cos a < tan b + 1 / cos b.
Proof.
  intros Ha Hab Hb. pose proof PI_RGT_0 as Hpi.
  assert (0 < cos a) as Hca by (apply cos_gt_0; lra).
  assert (0 < cos b) as Hcb by (apply cos_gt_0; lra).
  assert (cos b < cos a) as Hc by (apply cos_decreasing_1; lra).
  assert (sin a < sin b) as Hs by (apply sin_increasing_1; lra).
  assert (-1 < sin a) as Hsa by (apply sin_gt_minus_1; lra).
  rewrite !mercator_arg_plus by done.
  apply frac_lt; [done..|]. nra.
Qed.

Lemma mercator_arg_increasing_south a b :
  - (PI / 2) < a -> a < b -> b <= 0 ->
  tan a + 1 / cos a < tan b + 1 / cos b.
Proof.
  intros Ha Hab Hb. pose proof PI_RGT_0 as Hpi.
  assert (0 < cos a) as Hca by (apply cos_gt_0; lra).
  assert (0 < cos b) as Hcb by (apply cos_gt_0; lra).
  assert (cos a < cos b) as Hc.
  { rewrite <- (cos_neg a), <- (cos_neg b). apply cos_decreasing_1; lra. }
  assert (sin a < sin b) as Hs by (apply sin_increasing_1; lra).
  assert (sin b < 1) as Hsb by (apply sin_lt_1; lra).
  rewrite !mercator_arg_minus by (done || lra).
  apply frac_lt; [lra..|]. nra.
Qed.

Lemma mercator_arg_increasing a b :
  - (PI / 2) < a -> a < b -> b < PI / 2 ->
  tan a + 1 / cos a < tan b + 1 / cos b.
Proof.
  intros Ha Hab Hb.
  destruct (Rle_lt_dec 0 a) as [H0a|Ha0].
  { by apply mercator_arg_increasing_north. }
  destruct (Rle_lt_dec b 0) as [Hb0|H0b].
  { by apply mercator_arg_increasing_south. }
  apply (Rlt_trans _ (tan 0 + 1 / cos 0)).
  - apply mercator_arg_increasing_south; lra.
  - apply mercator_arg_increasing_north; lra.
Qed.

Lemma n_pos zoom : 0 < Projection.n zoom.
Proof. apply powerRZ_lt. lra. Qed.

Lemma latRad_range lat :
  -85 < lat -> lat < 85 ->
  - (PI / 2) < lat * PI / 180 /\ lat * PI / 180 < PI / 2.
Proof. intros H1 H2. pose proof PI_RGT_0. split; nra. Qed.

(** C9, as the formulas have it over the real numbers: for a zoom level
    between 1 and 19 and a positive tile size, the global pixel X of the
    projection grows strictly with the longitude, and between the latitudes
    -85 and 85 its global pixel Y falls strictly as the latitude grows. *)
Theorem projection_strictly_monotone (zoom tileSize : Z) :
  (1 <= zoom <= 19)%Z -> (0 < tileSize)%Z ->
  (forall lon1 lon2,
     lon1 < lon2 ->
     Projection.centerX lon1 zoom tileSize
     < Projection.centerX lon2 zoom tileSize)
  /\ (forall lat1 lat2,
        -85 < lat1 -> lat1 < lat2 -> lat2 < 85 ->
        Projection.centerY lat2 zoom tileSize
        < Projection.centerY lat1 zoom tileSize).
Proof.
  intros Hzoom Hts.
  pose proof (n_pos zoom) as Hn.
  assert (0 < IZR tileSize) as Ht by (by apply IZR_lt).
  assert (0 < Projection.n zoom * IZR tileSize) as Hk by nra.
  split.
  - intros lon1 lon2 Hlon. unfold Projection.centerX.
    replace ((lon1 + 180) / 360 * Projection.n zoom * IZR tileSize)
      with ((lon1 + 180) / 360 * (Projection.n zoom * IZR tileSize)) by ring.
    replace ((lon2 + 180) / 360 * Projection.n zoom * IZR tileSize)
      with ((lon2 + 180) / 360 * (Projection.n zoom * IZR tileSize)) by ring.
    apply Rmult_lt_compat_r; [done|]. lra.
  - intros lat1 lat2 H1 H12 H2. unfold Projection.centerY. cbv zeta.
    pose proof PI_RGT_0 as Hpi.
    destruct (latRad_range lat1) as [Ha1 Ha2]; [lra..|].
    destruct (latRad_range lat2) as [Hb1 Hb2]; [lra..|].
    assert (lat1 * PI / 180 < lat2 * PI / 180) as Hab by nra.
    pose proof (mercator_arg_pos _ Ha1 Ha2) as Hpos.
    pose proof (mercator_arg_increasing _ _ Ha1 Hab Hb2) as Hinc.
    pose proof (ln_increasing _ _ Hpos Hinc) as Hln.
    set (l1 := ln (tan (lat1 * PI / 180) + 1 / cos (lat1 * PI / 180))) in *.
    set (l2 := ln (tan (lat2 * PI / 180) + 1 / cos (lat2 * PI / 180))) in *.
    replace ((1 - l2 / PI) / 2 * Projection.n zoom * IZR tileSize)
      with ((1 - l2 / PI) / 2 * (Projection.n zoom * IZR tileSize)) by ring.
    replace ((1 - l1 / PI) / 2 * Projection.n zoom * IZR tileSize)
      with ((1 - l1 / PI) / 2 * (Projection.n zoom * IZR tileSize)) by ring.
    apply Rmult_lt_compat_r; [done|].
    assert (l1 / PI < l2 / PI); [|lra].
    unfold Rdiv. apply Rmult_lt_compat_r; [|done].
    by apply Rinv_0_lt_compat.
Qed.

Lemma projection_strictly_monotone_witness :
  Projection.centerX 0 16 256 < Projection.centerX 1 16 256
  /\ Projection.centerY 1 16 256 < Projection.centerY 0 16 256.
Proof.
  destruct (projection_strictly_monotone 16 256) as [HX HY]; [lia..|].
  split; [apply HX; lra|apply HY; lra].
Defined.

End Mercator.

(** In [double], as the code computes it, the global pixel X is not strictly
    monotone: the longitudes [0] and [2^-47] differ, but [lon + 180.0]
    rounds to [180] for both, so that they have the same global pixel X at
    every zoom level and tile size; at the zoom levels 1 to 19 with
    256-pixel tiles the X of the larger longitude is not larger. *)
Lemma centerX_not_strict_in_double :
  (0 <? 0x1p-47)%float = true
  /\ (forall zoom tileSize : Z,
        ProjectionDouble.centerX 0x1p-47 zoom tileSize
        = ProjectionDouble.centerX 0 zoom tileSize)
  /\ Forall (fun zoom =>
               (ProjectionDouble.centerX 0 zoom 256
                <? ProjectionDouble.centerX 0x1p-47 zoom 256)%float = false)
            (seqZ 1 19).
Proof.
  split; [vm_compute; reflexivity|]. split.
  - intros zoom tileSize. unfold ProjectionDouble.centerX.
    change (0x1p-47 + 180)%float with (0 + 180)%float. reflexivity.
  - vm_compute. repeat constructor.
Qed.

(** ** What a sequence of copies paints *)

Lemma paints_skip L E : paints L E (fun _ => False) Ok.
Proof. intros b Hb. exists b. repeat split; [done|]. intros k. right. tauto. Qed.

Lemma paints_region L E (R R' : nat -> Prop) c :
  (forall k, R k <-> R' k) -> paints L E R c -> paints L E R' c.
Proof.
  intros Hiff Hc b Hb. destruct (Hc b Hb) as (b' & Hr & Hl & Hk).
  exists b'. repeat split; [done..|].
  intros k. destruct (Hk k) as [[? ?]|[? ?]]; [left|right];
    (split; [done|]); rewrite <- Hiff; done.
Qed.

Lemma paints_foldM {A} L E (R : A -> nat -> Prop)
    (body : list byte -> A -> outcome (list byte)) (l : list A) :
  (forall a, a ∈ l -> paints L E (R a) (fun b => body b a)) ->
  paints L E (fun k => exists a, a ∈ l /\ R a k) (foldM body l).
Proof.
  induction l as [|a l IH]; intros H b Hb; simpl.
  { exists b. repeat split; [done|]. intros k. right.
    split; [done|]. intros (a & Ha & _). by apply not_elem_of_nil in Ha. }
  destruct (H a (list_elem_of_here _ _) b Hb) as (b1 & -> & Hl1 & Hk1).
  simpl.
  destruct (IH (fun a' Ha' => H a' (list_elem_of_further _ _ _ Ha')) b1 Hl1)
    as (b2 & -> & Hl2 & Hk2).
  exists b2. repeat split; [done|]. intros k.
  destruct (Hk2 k) as [[He2 (a' & Ha' & HR')]|[He2 Hn2]].
  { left. split; [done|]. exists a'. split; [by right|done]. }
  destruct (Hk1 k) as [[He1 HR1]|[He1 Hn1]].
  { left. split; [congruence|]. exists a. split; [by left|done]. }
  right. split; [congruence|].
  intros (a' & Ha' & HR'). apply elem_of_cons in Ha' as [->|Ha'].
  - by apply Hn1.
  - apply Hn2. by exists a'.
Qed.

Lemma paints_memcpy L E dstIdx src srcIdx n :
  0 <= n -> 0 <= srcIdx -> srcIdx + n <= Z.of_nat (length src) ->
  0 <= dstIdx -> dstIdx + n <= Z.of_nat L ->
  (forall k : nat,
     dstIdx <= Z.of_nat k < dstIdx + n ->
     src !! Z.to_nat (srcIdx + (Z.of_nat k - dstIdx)) = E k) ->
  paints L E (fun k => dstIdx <= Z.of_nat k < dstIdx + n)
         (fun b => memcpy b dstIdx src srcIdx n).
Proof.
  intros Hn Hs1 Hs2 Hd1 Hd2 HE b Hb.
  pose proof (memcpy_in_bounds b dstIdx src srcIdx n Hs1 Hs2 Hd1
                ltac:(lia)) as Hm.
  eexists. split; [exact Hm|].
  split; [rewrite <- Hb; exact (memcpy_length _ _ _ _ _ _ Hn Hm)|].
  intros k. destruct (decide (dstIdx <= Z.of_nat k < dstIdx + n)) as [Hk|Hk].
  - left. split; [|done]. rewrite <- HE by done.
    exact (memcpy_lookup_inside _ _ _ _ _ _ _ Hm Hk).
  - right. split; [|done].
    exact (memcpy_lookup_outside _ _ _ _ _ _ _ Hn Hm Hk).
Qed.

(** Two steps that paint every byte of the raster from the same image
    produce the same raster. *)
Lemma paints_all_agree L E R R' c c' b :
  paints L E R c -> paints L E R' c' ->
  (forall k, (k < L)%nat -> R k /\ R' k) ->
  length b = L -> c b = c' b.
Proof.
  intros Hc Hc' Hall Hb.
  destruct (Hc b Hb) as (b1 & -> & Hl1 & Hk1).
  destruct (Hc' b Hb) as (b2 & -> & Hl2 & Hk2).
  f_equal. apply list_eq. intros k.
  destruct (decide (k < L)%nat) as [Hlt|Hge].
  - destruct (Hall k Hlt) as [HR HR'].
    destruct (Hk1 k) as [[-> _]|[_ Hn]]; [|done].
    destruct (Hk2 k) as [[-> _]|[_ Hn]]; done.
  - rewrite !lookup_ge_None_2 by lia. done.
Qed.

Lemma byte_index_range W x y (k : nat) :
  0 <= x < W -> 0 <= y -> 
  ((y * W + x) * 4 <= Z.of_nat k < (y * W + x) * 4 + 4) <->
  exists c, 0 <= c < 4 /\ k = byte_index W x y c.
Proof.
  intros Hx Hy. unfold byte_index. split.
  - intros Hk. exists (Z.of_nat k - (y * W + x) * 4). split; [lia|].
    apply Nat2Z.inj. rewrite Z2Nat.id; lia.
  - intros (c' & Hc' & ->). rewrite Z2Nat.id; nia.
Qed.

(** A blit of a full-size tile paints the part of its square that lies in
    the raster. *)
Lemma blit_tile_paints W H tileSize offsetX offsetY pixels E :
  0 <= W -> 0 <= H ->
  Z.of_nat (length pixels) = tileSize * tileSize * 4 ->
  (forall i j c,
     0 <= i < tileSize -> 0 <= j < tileSize -> 0 <= c < 4 ->
     0 <= offsetX + i < W -> 0 <= offsetY + j < H ->
     pixels !! Z.to_nat ((j * tileSize + i) * 4 + c)
     = E (byte_index W (offsetX + i) (offsetY + j) c)) ->
  paints (Z.to_nat (W * H * 4)) E (in_square W H tileSize offsetX offsetY)
         (blit_tile W H tileSize offsetX offsetY pixels).
Proof.
  intros HW HH Hlen HE. unfold blit_tile, for_loop.
  eapply paints_region;
    [|apply (paints_foldM _ _ (fun j k =>
        exists x c, k = byte_index W x (offsetY + j) c
          /\ 0 <= x < W /\ 0 <= c < 4
          /\ offsetX <= x < offsetX + tileSize
          /\ 0 <= offsetY + j < H))].
  { intros k. split.
    - intros (j & Hj%elem_of_seqZ & x & c & -> & Hx & Hc & Hox & Hy).
      exists x, (offsetY + j), c. repeat split; lia.
    - intros (x & y & c & -> & Hx & Hy & Hc & Hox & Hoy).
      exists (y - offsetY). split; [apply elem_of_seqZ; lia|].
      exists x, c. replace (offsetY + (y - offsetY)) with y by lia.
      repeat split; lia. }
  intros j Hj%elem_of_seqZ. cbv beta.
  destruct ((offsetY + j <? 0) || (H <=? offsetY + j)) eqn:Gy.
  { eapply paints_region; [|apply paints_skip].
    intros k. split; [done|].
    intros (x & c & _ & _ & _ & _ & Hy).
    apply orb_true_iff in Gy as [Gy%Z.ltb_lt|Gy%Z.leb_le]; lia. }
  apply orb_false_iff in Gy as [Gy1%Z.ltb_ge Gy2%Z.leb_gt].
  eapply paints_region;
    [|apply (paints_foldM _ _ (fun i k =>
        exists c, k = byte_index W (offsetX + i) (offsetY + j) c
          /\ 0 <= c < 4 /\ 0 <= offsetX + i < W))].
  { intros k. split.
    - intros (i & Hi%elem_of_seqZ & c & -> & Hc & Hx).
      exists (offsetX + i), c. repeat split; lia.
    - intros (x & c & -> & Hx & Hc & Hox & Hy).
      exists (x - offsetX). split; [apply elem_of_seqZ; lia|].
      exists c. replace (offsetX + (x - offsetX)) with x by lia.
      repeat split; lia. }
  intros i Hi%elem_of_seqZ. cbv beta.
  destruct ((offsetX + i <? 0) || (W <=? offsetX + i)) eqn:Gx.
  { eapply paints_region; [|apply paints_skip].
    intros k. split; [done|].
    intros (c & _ & _ & Hx).
    apply orb_true_iff in Gx as [Gx%Z.ltb_lt|Gx%Z.leb_le]; lia. }
  apply orb_false_iff in Gx as [Gx1%Z.ltb_ge Gx2%Z.leb_gt].
  destruct (pixel_in_raster W H (offsetX + i) (offsetY + j)) as [Hlo Hhi];
    [lia..|].
  eapply paints_region; [|apply paints_memcpy].
  - intros k. cbv beta.
    rewrite (byte_index_range W (offsetX + i) (offsetY + j) k) by lia.
    split.
    + intros (c & Hc & ->). exists c. repeat split; lia.
    + intros (c & -> & Hc & _). by exists c.
  - lia.
  - nia.
  - nia.
  - lia.
  - lia.
  - intros k Hk.
    apply (byte_index_range W (offsetX + i) (offsetY + j) k) in Hk
      as (c & Hc & ->); [|lia..].
    rewrite <- HE by lia. f_equal. unfold byte_index.
    rewrite Z2Nat.id by lia. lia.
Qed.

(** ** The raster painted by the compositor of [edit.cpp] *)

Lemma divmod_combine q n r :
  0 <= r < n -> (q * n + r) / n = q /\ (q * n + r) mod n = r.
Proof.
  intros Hr. split.
  - symmetry. apply (Z.div_unique _ _ q r); lia.
  - symmetry. apply (Z.mod_unique _ _ q r); lia.
Qed.

Lemma placed_at W tileSize dx dy tiles x y c tx ty i j :
  0 <= x < W -> 0 <= y -> 0 <= c < 4 ->
  x - dx = tx * tileSize + i -> 0 <= i < tileSize ->
  y - dy = ty * tileSize + j -> 0 <= j < tileSize ->
  placed W tileSize dx dy tiles (byte_index W x y c)
  = tiles tx ty !! Z.to_nat ((j * tileSize + i) * 4 + c).
Proof.
  intros Hx Hy Hc Hdx Hi Hdy Hj. unfold placed, byte_index.
  rewrite Z2Nat.id by nia.
  destruct (divmod_combine (y * W + x) 4 c Hc) as [-> ->].
  destruct (divmod_combine y W x Hx) as [-> ->].
  rewrite Hdx, Hdy.
  destruct (divmod_combine tx tileSize i Hi) as [-> ->].
  destruct (divmod_combine ty tileSize j Hj) as [-> ->].
  done.
Qed.

Lemma bind_singleton_fmap {A B} (f : A -> B) (l : list A) :
  l ≫= (fun a => [f a]) = f <$> l.
Proof. induction l as [|a l IH]; [done|]. rewrite bind_cons, IH. done. Qed.

Lemma lookup_bind_rows {A B} (f : A -> list B) (l : list A) (n i j : nat) :
  (forall a, a ∈ l -> length (f a) = n) ->
  (j < n)%nat ->
  (l ≫= f) !! (i * n + j)%nat = l !! i ≫= fun a => f a !! j.
Proof.
  revert i. induction l as [|a l IH]; intros i Hlen Hj; [done|].
  rewrite bind_cons. destruct i as [|i]; simpl.
  - rewrite lookup_app_l by (rewrite Hlen by left; lia). done.
  - rewrite lookup_app_r by (rewrite Hlen by left; lia).
    rewrite Hlen by left.
    replace (n + i * n + j - n)%nat with (i * n + j)%nat by lia.
    apply IH; [|done]. intros a' Ha'. apply Hlen. by right.
Qed.

Lemma grid_cells_rows g :
  grid_cells g
  = seqZ 0 (numTilesY g)
      ≫= fun ty => (fun tx => (tx, ty)) <$> seqZ 0 (numTilesX g).
Proof.
  unfold grid_cells. apply list_bind_ext; [|done].
  intros ty. apply bind_singleton_fmap.
Qed.

Lemma length_grid_cells g :
  0 <= numTilesX g -> 0 <= numTilesY g ->
  Z.of_nat (length (grid_cells g)) = numTilesX g * numTilesY g.
Proof.
  intros HX HY. rewrite grid_cells_rows.
  generalize (numTilesY g) HY. intros m Hm.
  rewrite <- (Z2Nat.id m) by done.
  induction (Z.to_nat m) as [|k IH]; [simpl; lia|].
  rewrite seqZ_S, bind_app, length_app, Nat2Z.inj_add, IH.
  simpl. rewrite app_nil_r, length_fmap, length_seqZ. lia.
Qed.

Lemma lookup_grid_cells g idx :
  0 < numTilesX g ->
  0 <= idx < numTilesX g * numTilesY g ->
  grid_cells g !! Z.to_nat idx
  = Some (idx mod numTilesX g, idx / numTilesX g).
Proof.
  intros HX Hidx. rewrite grid_cells_rows.
  pose proof (Z.div_mod idx (numTilesX g) ltac:(lia)) as Hdm.
  pose proof (Z.mod_pos_bound idx (numTilesX g) HX) as Hm.
  assert (0 <= idx / numTilesX g) as Hq by (apply Z.div_pos; lia).
  assert (idx / numTilesX g < numTilesY g) as Hq'.
  { apply Z.div_lt_upper_bound; lia. }
  replace (Z.to_nat idx)
    with (Z.to_nat (idx / numTilesX g) * Z.to_nat (numTilesX g)
          + Z.to_nat (idx mod numTilesX g))%nat by nia.
  rewrite (lookup_bind_rows _ _ (Z.to_nat (numTilesX g))).
  - rewrite lookup_seqZ_lt by lia. simpl.
    rewrite list_lookup_fmap, lookup_seqZ_lt by lia. simpl.
    f_equal. f_equal; lia.
  - intros ty _. by rewrite length_fmap, length_seqZ.
  - lia.
Qed.

Lemma Qfloor_shift (a : Z) (q : Q) :
  Qfloor (inject_Z a + q) = a + Qfloor q.
Proof.
  apply Z.le_antisymm.
  - apply Z.lt_succ_r. rewrite Zlt_Qlt.
    eapply Qle_lt_trans; [apply Qfloor_le|].
    replace (Z.succ (a + Qfloor q)) with (a + (Qfloor q + 1)) by lia.
    rewrite inject_Z_plus. apply Qplus_lt_r. apply Qlt_floor.
  - rewrite <- (Qfloor_Z (a + Qfloor q)). apply Qfloor_resp_le.
    rewrite inject_Z_plus. apply Qplus_le_r. apply Qfloor_le.
Qed.

(** Consecutive tiles are placed exactly [tileSize] pixels apart. *)
Lemma tile_offset_shift t tileSize topLeft :
  tile_offset t tileSize topLeft
  = t * tileSize + tile_offset 0 tileSize topLeft.
Proof.
  unfold tile_offset, Dbl.floor, Dbl.of_int.
  rewrite <- Qfloor_shift. apply Qfloor_comp.
  rewrite inject_Z_mult. ring.
Qed.

Lemma composite_tiles_paints W H tileSize g tiles :
  0 <= W -> 0 <= H -> 0 < tileSize ->
  (forall tx ty,
     0 <= tx < numTilesX g -> 0 <= ty < numTilesY g ->
     Z.of_nat (length (tiles tx ty)) = tileSize * tileSize * 4) ->
  paints (Z.to_nat (W * H * 4))
         (placed W tileSize (tile_offset 0 tileSize (topLeftX g))
                 (tile_offset 0 tileSize (topLeftY g)) tiles)
         (under_grid W H tileSize (tile_offset 0 tileSize (topLeftX g))
                     (tile_offset 0 tileSize (topLeftY g)) g)
         (composite_tiles W H tileSize g (futures_of g tiles)).
Proof.
  intros HW HH Hts Hlen.
  set (dx := tile_offset 0 tileSize (topLeftX g)).
  set (dy := tile_offset 0 tileSize (topLeftY g)).
  unfold composite_tiles, for_loop.
  destruct (decide (0 < numTilesX g /\ 0 < numTilesY g)) as [[HX HY]|Hempty].
  2:{ assert (grid_cells g = []) as Hnil.
      { unfold grid_cells.
        destruct (decide (0 < numTilesY g)) as [HY|HY].
        - rewrite (seqZ_nil 0 (numTilesX g)) by lia.
          induction (seqZ 0 (numTilesY g)) as [|a l IH]; [done|].
          by rewrite bind_cons, IH.
        - by rewrite (seqZ_nil 0 (numTilesY g)) by lia. }
      unfold futures_of. rewrite Hnil. simpl.
      eapply paints_region; [|apply paints_skip].
      intros k. split; [done|].
      intros (tx & ty & Hx & Hy & _). apply Hempty. lia. }
  assert (Z.of_nat (length (futures_of g tiles))
          = numTilesX g * numTilesY g) as Hn.
  { unfold futures_of. rewrite length_fmap. apply length_grid_cells; lia. }
  rewrite Hn.
  eapply paints_region;
    [|apply (paints_foldM _ _ (fun idx =>
        in_square W H tileSize
          (idx mod numTilesX g * tileSize + dx)
          (idx / numTilesX g * tileSize + dy)))].
  { intros k. unfold under_grid. split.
    - intros (idx & Hidx%elem_of_seqZ & Hsq).
      exists (idx mod numTilesX g), (idx / numTilesX g).
      pose proof (Z.mod_pos_bound idx (numTilesX g) HX).
      split; [lia|]. split; [|done].
      split; [apply Z.div_pos; lia|apply Z.div_lt_upper_bound; lia].
    - intros (tx & ty & Hx & Hy & Hsq).
      exists (ty * numTilesX g + tx). split; [apply elem_of_seqZ; nia|].
      by destruct (divmod_combine ty (numTilesX g) tx Hx) as [-> ->]. }
  intros idx Hidx%elem_of_seqZ. cbv beta.
  rewrite Z.quot_div_nonneg, Z.rem_mod_nonneg by lia.
  unfold futures_of. rewrite list_lookup_fmap, lookup_grid_cells by lia.
  simpl.
  pose proof (Z.mod_pos_bound idx (numTilesX g) HX) as Hm.
  assert (0 <= idx / numTilesX g < numTilesY g) as Hq.
  { split; [apply Z.div_pos; lia|apply Z.div_lt_upper_bound; lia]. }
  rewrite (tile_offset_shift (idx mod numTilesX g)),
          (tile_offset_shift (idx / numTilesX g)).
  fold dx dy.
  apply blit_tile_paints; [done|done|by apply Hlen|].
  intros i j c Hi Hj Hc Hxr Hyr. symmetry.
  apply placed_at; lia.
Qed.

(** ** Viewports whose corner is a pixel with non-negative coordinates *)

Lemma trunc_comp x y : (x == y)%Q -> Dbl.trunc x = Dbl.trunc y.
Proof.
  intros H. unfold Dbl.trunc.
  rewrite (Qleb_comp 0%Q 0%Q (Qeq_refl 0%Q) x y H).
  by rewrite (Qfloor_comp x y H), (Qceiling_comp x y H).
Qed.

Lemma floor_div_pixel tl t i tileSize :
  (tl == inject_Z t)%Q ->
  Dbl.floor ((tl + Dbl.of_int i) / Dbl.of_int tileSize) = (t + i) / tileSize.
Proof.
  intros Htl. unfold Dbl.floor, Dbl.of_int.
  rewrite Zdiv_Qdiv. apply Qfloor_comp.
  rewrite Htl, inject_Z_plus. reflexivity.
Qed.

Lemma floor_div_corner tl t tileSize :
  (tl == inject_Z t)%Q ->
  Dbl.floor (tl / Dbl.of_int tileSize) = t / tileSize.
Proof.
  intros Htl. unfold Dbl.floor, Dbl.of_int.
  rewrite Zdiv_Qdiv. apply Qfloor_comp. by rewrite Htl.
Qed.

Lemma trunc_pixel tl t i :
  (tl == inject_Z t)%Q -> 0 <= t + i ->
  Dbl.trunc (tl + Dbl.of_int i) = t + i.
Proof.
  intros Htl Hti. unfold Dbl.of_int.
  rewrite (trunc_comp _ (inject_Z (t + i)))
    by (rewrite Htl, inject_Z_plus; reflexivity).
  rewrite trunc_nonneg; [apply Qfloor_Z|].
  change 0%Q with (inject_Z 0). by rewrite <- Zle_Qle.
Qed.

Lemma fmod_corner tl t tileSize :
  (tl == inject_Z t)%Q -> 0 <= t -> 0 < tileSize ->
  (Dbl.fmod tl (Dbl.of_int tileSize) == inject_Z (t mod tileSize))%Q.
Proof.
  intros Htl Ht Hts. unfold Dbl.fmod, Dbl.of_int.
  rewrite (trunc_comp _ (inject_Z t / inject_Z tileSize))
    by (by rewrite Htl).
  rewrite trunc_nonneg.
  - rewrite <- Zdiv_Qdiv, Htl, <- inject_Z_mult.
    unfold Qminus. rewrite <- inject_Z_opp, <- inject_Z_plus.
    replace (t + - (t / tileSize * tileSize)) with (t mod tileSize);
      [reflexivity|].
    pose proof (Z.div_mod t tileSize). lia.
  - apply Qdiv_nonneg.
    + change 0%Q with (inject_Z 0). by rewrite <- Zle_Qle.
    + change 0%Q with (inject_Z 0). by rewrite <- Zlt_Qlt.
Qed.

Lemma tile_offset_corner tl t tileSize :
  (tl == inject_Z t)%Q -> 0 <= t -> 0 < tileSize ->
  tile_offset 0 tileSize tl = - (t mod tileSize).
Proof.
  intros Htl Ht Hts. unfold tile_offset, Dbl.floor.
  rewrite <- (Qfloor_Z (- (t mod tileSize))). apply Qfloor_comp.
  rewrite (fmod_corner tl t tileSize Htl Ht Hts).
  unfold Dbl.of_int. rewrite inject_Z_opp. ring.
Qed.

Lemma grid_corner finalWidth finalHeight centerX centerY tileSize tx ty :
  let g := grid finalWidth finalHeight centerX centerY tileSize in
  (topLeftX g == inject_Z tx)%Q -> (topLeftY g == inject_Z ty)%Q ->
  startTileX g = tx / tileSize
  /\ startTileY g = ty / tileSize
  /\ numTilesX g = (tx + finalWidth) / tileSize - tx / tileSize + 1
  /\ numTilesY g = (ty + finalHeight) / tileSize - ty / tileSize + 1.
Proof.
  intros g Hx Hy. subst g. unfold grid in *.
  cbn [topLeftX topLeftY startTileX startTileY numTilesX numTilesY] in *.
  rewrite !(floor_div_corner _ tx), !(floor_div_corner _ ty) by done.
  rewrite (floor_div_pixel _ tx), (floor_div_pixel _ ty) by done.
  done.
Qed.

(** ** The raster painted by the compositor of [c1.cpp] *)

Lemma lookup_seqZ_0 n z : 0 <= z < n -> seqZ 0 n !! Z.to_nat z = Some z.
Proof. intros Hz. rewrite lookup_seqZ_lt by lia. f_equal. lia. Qed.

Lemma byte_index_decompose W H (k : nat) :
  0 <= W -> 0 <= H -> Z.of_nat k < W * H * 4 ->
  exists x y c,
    k = byte_index W x y c /\ 0 <= x < W /\ 0 <= y < H /\ 0 <= c < 4.
Proof.
  intros HW HH Hk. assert (0 < W) as HW' by nia.
  pose proof (Z.div_mod (Z.of_nat k) 4 ltac:(lia)) as H4.
  pose proof (Z.mod_pos_bound (Z.of_nat k) 4 ltac:(lia)) as Hc.
  pose proof (Z.div_mod (Z.of_nat k / 4) W ltac:(lia)) as Hp.
  pose proof (Z.mod_pos_bound (Z.of_nat k / 4) W HW') as Hx.
  assert (0 <= Z.of_nat k / 4) as Hp0 by (apply Z.div_pos; lia).
  assert (0 <= Z.of_nat k / 4 / W) as Hy0 by (apply Z.div_pos; lia).
  exists (Z.of_nat k / 4 mod W), (Z.of_nat k / 4 / W), (Z.of_nat k mod 4).
  split; [unfold byte_index; apply Nat2Z.inj; rewrite Z2Nat.id; lia|].
  repeat split; try lia.
  apply Z.div_lt_upper_bound; [lia|].
  apply Z.div_lt_upper_bound; lia.
Qed.

Lemma images_of_row g tiles row :
  0 <= row < numTilesY g ->
  images_of g tiles !! Z.to_nat row
  = Some ((fun tx => Some (tiles tx row)) <$> seqZ 0 (numTilesX g)).
Proof.
  intros Hr. unfold images_of.
  by rewrite list_lookup_fmap, lookup_seqZ_0.
Qed.

Lemma composite_pixels_paints W H tileSize g tiles tlx tly :
  0 <= W -> 0 <= H -> 0 < tileSize ->
  (topLeftX g == inject_Z tlx)%Q -> 0 <= tlx ->
  (topLeftY g == inject_Z tly)%Q -> 0 <= tly ->
  startTileX g = tlx / tileSize ->
  startTileY g = tly / tileSize ->
  numTilesX g = (tlx + W) / tileSize - tlx / tileSize + 1 ->
  numTilesY g = (tly + H) / tileSize - tly / tileSize + 1 ->
  (forall tx ty,
     0 <= tx < numTilesX g -> 0 <= ty < numTilesY g ->
     Z.of_nat (length (tiles tx ty)) = tileSize * tileSize * 4) ->
  paints (Z.to_nat (W * H * 4))
         (placed W tileSize (- (tlx mod tileSize)) (- (tly mod tileSize))
                 tiles)
         (fun k => Z.of_nat k < W * H * 4)
         (C1_cpp.composite_pixels W H tileSize g (images_of g tiles)).
Proof.
  intros HW HH Hts Hx Htlx Hy Htly Hsx Hsy HnX HnY Hlen.
  unfold C1_cpp.composite_pixels, for_loop.
  eapply paints_region;
    [|apply (paints_foldM _ _ (fun j k =>
        exists i c, 0 <= i < W /\ 0 <= j < H /\ 0 <= c < 4
                    /\ k = byte_index W i j c))].
  { intros k. split.
    - intros (j & _ & i & c & Hi & Hj & Hc & ->).
      unfold byte_index. rewrite Z2Nat.id by nia. nia.
    - intros Hk.
      destruct (byte_index_decompose W H k HW HH Hk)
        as (x & y & c & -> & Hx' & Hy' & Hc).
      exists y. split; [apply elem_of_seqZ; lia|]. by exists x, c. }
  intros j Hj%elem_of_seqZ. cbv beta.
  eapply paints_region;
    [|apply (paints_foldM _ _ (fun i k =>
        exists c, 0 <= c < 4 /\ k = byte_index W i j c))].
  { intros k. split.
    - intros (i & Hi%elem_of_seqZ & c & Hc & ->).
      exists i, c. repeat split; lia.
    - intros (i & c & Hi & _ & Hc & ->).
      exists i. split; [apply elem_of_seqZ; lia|]. by exists c. }
  intros i Hi%elem_of_seqZ. cbv beta zeta.
  rewrite (floor_div_pixel _ tlx i) by done.
  rewrite (floor_div_pixel _ tly j) by done.
  rewrite (trunc_pixel _ tlx i), (trunc_pixel _ tly j) by (done || lia).
  rewrite !Z.rem_mod_nonneg by lia.
  rewrite Hsx, Hsy.
  set (col := (tlx + i) / tileSize - tlx / tileSize).
  set (row := (tly + j) / tileSize - tly / tileSize).
  pose proof (Z.mod_pos_bound (tlx + i) tileSize Hts) as Hpx.
  pose proof (Z.mod_pos_bound (tly + j) tileSize Hts) as Hpy.
  assert (0 <= col < numTilesX g) as Hcol.
  { rewrite HnX. subst col.
    pose proof (Z.div_le_mono tlx (tlx + i) tileSize Hts ltac:(lia)).
    pose proof (Z.div_le_mono (tlx + i) (tlx + W) tileSize Hts ltac:(lia)).
    lia. }
  assert (0 <= row < numTilesY g) as Hrow.
  { rewrite HnY. subst row.
    pose proof (Z.div_le_mono tly (tly + j) tileSize Hts ltac:(lia)).
    pose proof (Z.div_le_mono (tly + j) (tly + H) tileSize Hts ltac:(lia)).
    lia. }
  assert ((0 <=? row) && (row <? numTilesY g)
          && (0 <=? col) && (col <? numTilesX g) = true) as ->.
  { rewrite !andb_true_iff, !Z.leb_le, !Z.ltb_lt. lia. }
  rewrite (images_of_row g tiles row Hrow).
  rewrite list_lookup_fmap, (lookup_seqZ_0 _ col Hcol). simpl.
  destruct (pixel_in_raster W H i j) as [Hlo Hhi]; [lia..|].
  pose proof (Hlen col row Hcol Hrow) as Hl.
  eapply paints_region; [|apply paints_memcpy].
  - intros k. cbv beta.
    apply (byte_index_range W i j k); lia.
  - lia.
  - nia.
  - nia.
  - lia.
  - lia.
  - intros k Hk.
    apply (byte_index_range W i j k) in Hk as (c & Hc & ->); [|lia..].
    symmetry.
    rewrite (placed_at W tileSize _ _ tiles i j c col row
               ((tlx + i) mod tileSize) ((tly + j) mod tileSize));
      [| lia | lia | lia | | lia | | lia].
    + f_equal. unfold byte_index. rewrite Z2Nat.id by lia. lia.
    + subst col.
      pose proof (Z.div_mod (tlx + i) tileSize ltac:(lia)).
      pose proof (Z.div_mod tlx tileSize ltac:(lia)). lia.
    + subst row.
      pose proof (Z.div_mod (tly + j) tileSize ltac:(lia)).
      pose proof (Z.div_mod tly tileSize ltac:(lia)). lia.
Qed.

(** ** The two compositors side by side *)

Lemma under_grid_all W H tileSize g tlx tly (k : nat) :
  0 <= W -> 0 <= H -> 0 < tileSize -> 0 <= tlx -> 0 <= tly ->
  numTilesX g = (tlx + W) / tileSize - tlx / tileSize + 1 ->
  numTilesY g = (tly + H) / tileSize - tly / tileSize + 1 ->
  Z.of_nat k < W * H * 4 ->
  under_grid W H tileSize (- (tlx mod tileSize)) (- (tly mod tileSize)) g k.
Proof.
  intros HW HH Hts Htlx Htly HnX HnY Hk.
  destruct (byte_index_decompose W H k HW HH Hk)
    as (x & y & c & -> & Hx & Hy & Hc).
  exists ((tlx + x) / tileSize - tlx / tileSize),
         ((tly + y) / tileSize - tly / tileSize).
  pose proof (Z.div_le_mono tlx (tlx + x) tileSize Hts ltac:(lia)).
  pose proof (Z.div_le_mono (tlx + x) (tlx + W) tileSize Hts ltac:(lia)).
  pose proof (Z.div_le_mono tly (tly + y) tileSize Hts ltac:(lia)).
  pose proof (Z.div_le_mono (tly + y) (tly + H) tileSize Hts ltac:(lia)).
  split; [lia|]. split; [lia|].
  exists x, y, c.
  pose proof (Z.div_mod (tlx + x) tileSize ltac:(lia)).
  pose proof (Z.div_mod tlx tileSize ltac:(lia)).
  pose proof (Z.mod_pos_bound (tlx + x) tileSize Hts).
  pose proof (Z.div_mod (tly + y) tileSize ltac:(lia)).
  pose proof (Z.div_mod tly tileSize ltac:(lia)).
  pose proof (Z.mod_pos_bound (tly + y) tileSize Hts).
  repeat split; lia.
Qed.

(** On the same tile images, for a corner with non-negative integer
    coordinates, the loop over the futures and the loop over the output
    pixels produce the same raster. *)
Lemma composites_agree W H centerX centerY tileSize tiles tlx tly :
  let g := grid W H centerX centerY tileSize in
  0 <= W -> 0 <= H -> 0 < tileSize ->
  (topLeftX g == inject_Z tlx)%Q -> 0 <= tlx ->
  (topLeftY g == inject_Z tly)%Q -> 0 <= tly ->
  (forall tx ty,
     0 <= tx < numTilesX g -> 0 <= ty < numTilesY g ->
     Z.of_nat (length (tiles tx ty)) = tileSize * tileSize * 4) ->
  composite_tiles W H tileSize g (futures_of g tiles)
                  (vector_fill (W * H * 4))
  = C1_cpp.composite_pixels W H tileSize g (images_of g tiles)
                        (vector_fill (W * H * 4)).
Proof.
  intros g HW HH Hts Hx Htlx Hy Htly Hlen.
  destruct (grid_corner W H centerX centerY tileSize tlx tly Hx Hy)
    as (Hsx & Hsy & HnX & HnY). fold g in Hsx, Hsy, HnX, HnY.
  pose proof (composite_tiles_paints W H tileSize g tiles HW HH Hts Hlen)
    as Hedit.
  rewrite (tile_offset_corner _ tlx) in Hedit by done.
  rewrite (tile_offset_corner _ tly) in Hedit by done.
  pose proof (composite_pixels_paints W H tileSize g tiles tlx tly HW HH Hts
                Hx Htlx Hy Htly Hsx Hsy HnX HnY Hlen) as Hc1.
  eapply (paints_all_agree _ _ _ _ _ _ _ Hedit Hc1).
  - intros k Hk. assert (Z.of_nat k < W * H * 4) as Hk' by lia.
    split; [|done]. by eapply under_grid_all.
  - apply length_vector_fill.
Qed.

Lemma mapS_fst_inv {A B} (Inv : State -> Prop)
    (f : A -> State -> B * State) (h : A -> B) (l : list A) (st : State) :
  Inv st ->
  (forall a st', a ∈ l -> Inv st' ->
     (f a st').1 = h a /\ Inv (f a st').2) ->
  (mapS f l st).1 = h <$> l /\ Inv (mapS f l st).2.
Proof.
  revert st. induction l as [|a l IH]; intros st Hst H; simpl; [done|].
  destruct (H a st (list_elem_of_here _ _) Hst) as [Hfa Hinv].
  destruct (f a st) as [b st1]; simpl in *.
  destruct (IH st1 Hinv) as [IH1 IH2].
  { intros a' st' Ha'. apply H. by right. }
  destruct (mapS f l st1) as [bs st2]; simpl in *.
  split; [by f_equal|done].
Qed.

Section SameTiles.

Variables (env : Env) (zoom tileSize : Z) (g : Grid).
Variable tiles : Z -> Z -> list byte.
Hypothesis served : serves env zoom tileSize g tiles.

Lemma LoadAndDecodeTile_served tx ty st :
  0 <= tx < numTilesX g -> 0 <= ty < numTilesY g ->
  cache_agrees zoom g tiles st ->
  (LoadAndDecodeTile env (startTileX g + tx) (startTileY g + ty)
                     zoom tileSize st).1 = tiles tx ty
  /\ cache_agrees zoom g tiles
       (LoadAndDecodeTile env (startTileX g + tx) (startTileY g + ty)
                          zoom tileSize st).2.
Proof.
  intros Hx Hy Hst.
  destruct (g_tileCache st
              !! mkTileKey zoom (startTileX g + tx) (startTileY g + ty))
    as [px|] eqn:Hc.
  { rewrite (LoadAndDecodeTile_hit _ _ _ _ _ _ _ Hc).
    split; [exact (Hst tx ty px Hx Hy Hc)|done]. }
  rewrite (LoadAndDecodeTile_miss _ _ _ _ _ _ Hc). cbv zeta.
  unfold fetch_and_decode, store. cbn [fst snd g_tileCache key_z key_x key_y].
  destruct (served (length (requests st)) tx ty Hx Hy)
    as (Hsized & data & -> & ->).
  rewrite take_ge by lia.
  split; [done|].
  intros tx' ty' px Hx' Hy'. cbn [g_tileCache].
  rewrite emplace_absent by done.
  destruct (decide (mkTileKey zoom (startTileX g + tx) (startTileY g + ty)
                    = mkTileKey zoom (startTileX g + tx')
                                (startTileY g + ty'))) as [Heq|Hne].
  - rewrite <- Heq, lookup_insert_eq. intros [= <-].
    injection Heq as Hex Hey. f_equal; lia.
  - rewrite lookup_insert_ne by done. by apply Hst.
Qed.

Lemma launch_tiles_served st :
  cache_agrees zoom g tiles st ->
  (launch_tiles env zoom tileSize g st).1 = futures_of g tiles.
Proof.
  intros Hst. unfold launch_tiles, futures_of.
  apply (mapS_fst_inv (cache_agrees zoom g tiles)); [done|].
  intros [tx ty] st' [Hx Hy]%elem_of_grid_cells Hst'.
  by apply LoadAndDecodeTile_served.
Qed.

Lemma LoadTileImage_served tx ty st :
  0 <= tx < numTilesX g -> 0 <= ty < numTilesY g ->
  (C1_cpp.LoadTileImage env
     (tile_url zoom (startTileX g + tx) (startTileY g + ty)) st).1
  = Some (tiles tx ty).
Proof.
  intros Hx Hy. unfold C1_cpp.LoadTileImage.
  by destruct (served (length (requests st)) tx ty Hx Hy)
    as (_ & data & -> & ->).
Qed.

Lemma load_tiles_served st :
  (C1_cpp.load_tiles env zoom g st).1 = images_of g tiles.
Proof.
  unfold C1_cpp.load_tiles, images_of.
  apply (mapS_fst_inv (fun _ => True)); [done|].
  intros ty st' Hy%elem_of_seqZ _. split; [|done].
  apply (mapS_fst_inv (fun _ => True)); [done|].
  intros tx st'' Hx%elem_of_seqZ _. split; [|done].
  apply LoadTileImage_served; lia.
Qed.

End SameTiles.

(** C10, as the code has it: when the corner of the viewport has
    non-negative integer global pixel coordinates, every request for a tile
    of the grid is answered with bytes that decode to one and the same
    [tileSize] x [tileSize] image, and the cache holds nothing else for
    these tiles, the compositor of [edit.cpp] and the compositor of
    [c1.cpp] return the same raster. *)
Theorem compositors_agree_on_pixel_corner
    (env : Env) (finalWidth finalHeight : Z) (centerX centerY : Q)
    (zoom tileSize : Z) (st : State) (tiles : Z -> Z -> list byte)
    (tlx tly : Z) :
  let g := grid finalWidth finalHeight centerX centerY tileSize in
  0 <= finalWidth -> 0 <= finalHeight -> 0 < tileSize ->
  (topLeftX g == inject_Z tlx)%Q -> 0 <= tlx ->
  (topLeftY g == inject_Z tly)%Q -> 0 <= tly ->
  serves env zoom tileSize g tiles ->
  cache_agrees zoom g tiles st ->
  (CompositeMap env finalWidth finalHeight centerX centerY zoom tileSize
                st).1
  = (C1_cpp.CompositeMap env finalWidth finalHeight centerX centerY zoom
                     tileSize st).1.
Proof.
  intros g HW HH Hts Hx Htlx Hy Htly Hserved Hcache.
  unfold CompositeMap, C1_cpp.CompositeMap. fold g.
  pose proof (launch_tiles_served env zoom tileSize g tiles Hserved
                st Hcache) as Hl.
  pose proof (load_tiles_served env zoom tileSize g tiles Hserved st) as Hc.
  destruct (launch_tiles env zoom tileSize g st) as [futures st1].
  destruct (C1_cpp.load_tiles env zoom g st) as [tileImages st2].
  simpl in Hl, Hc. subst futures tileImages. cbn [fst].
  apply (composites_agree finalWidth finalHeight centerX centerY tileSize
           tiles tlx tly); try done.
  intros tx ty Htx Hty. by destruct (Hserved 0%nat tx ty Htx Hty).
Qed.

Lemma compositors_agree_on_pixel_corner_witness :
  (CompositeMap env_2x2 2 2 2 2 1 2 empty_state).1
  = (C1_cpp.CompositeMap env_2x2 2 2 2 2 1 2 empty_state).1.
Proof.
  apply (compositors_agree_on_pixel_corner env_2x2 2 2 2 2 1 2 empty_state
           (fun _ _ => numbered_2x2) 1 1).
  - lia.
  - lia.
  - lia.
  - reflexivity.
  - lia.
  - reflexivity.
  - lia.
  - intros n tx ty _ _. split; [reflexivity|].
    exists []. split; reflexivity.
  - intros tx ty px _ _ H. unfold empty_state in H. cbn [g_tileCache] in H.
    rewrite lookup_empty in H. discriminate.
Defined.

(** With the same tiles and a corner half a pixel off the pixel grid
    (centre [(3/2, 1)], 2x2 viewport, 2x2 tiles) the two compositors both
    succeed and return different rasters: [edit.cpp] shows the second
    column of the first tile where [c1.cpp] shows its first column. *)
Lemma compositors_differ_off_pixel_grid :
  serves env_2x2 1 2 (grid 2 2 (3 # 2) 1 2) (fun _ _ => numbered_2x2)
  /\ cache_agrees 1 (grid 2 2 (3 # 2) 1 2) (fun _ _ => numbered_2x2)
                  empty_state
  /\ exists r1 r2,
       (CompositeMap env_2x2 2 2 (3 # 2) 1 1 2 empty_state).1 = Ok r1
       /\ (C1_cpp.CompositeMap env_2x2 2 2 (3 # 2) 1 1 2 empty_state).1
          = Ok r2
       /\ take 4 r1 = byte_of <$> [4; 5; 6; 7]%N
       /\ take 4 r2 = byte_of <$> [0; 1; 2; 3]%N
       /\ r1 <> r2.
Proof.
  split.
  { intros n tx ty _ _. split; [reflexivity|].
    exists []. split; reflexivity. }
  split.
  { intros tx ty px _ _ H. unfold empty_state in H. cbn [g_tileCache] in H.
    rewrite lookup_empty in H. discriminate. }
  eexists _, _. split; [vm_compute; reflexivity|].
  split; [vm_compute; reflexivity|].
  split; [vm_compute; reflexivity|].
  split; [vm_compute; reflexivity|].
  vm_compute. discriminate.
Qed.

(** With a corner at [-1] (centre [(0, 2)]) [c1.cpp] takes the remainder
    of a negative coordinate and reads its tile at a negative index, while
    [edit.cpp] returns a raster whose first column is left white. *)
Lemma compositors_differ_at_negative_corner :
  (C1_cpp.CompositeMap env_2x2 2 2 0 2 1 2 empty_state).1 = ReadOutOfBounds
  /\ exists r1,
       (CompositeMap env_2x2 2 2 0 2 1 2 empty_state).1 = Ok r1
       /\ take 4 r1 = replicate 4 white.
Proof.
  split; [vm_compute; reflexivity|].
  eexists. split; vm_compute; reflexivity.
Qed.

(** ** A composite that meets a tile of the wrong size *)

(** C8: with [tileSize = 2] and tiles that decode to a single pixel, a
    first composite of a 2x2 viewport leaves the four tiles of its grid in
    the cache, each as a copy of four bytes.  A composite on that cache is
    served from the cache alone and does not return a raster: the copy
    that [LoadAndDecodeTile] hands out has four bytes, and the first copy
    of the blit reads it at byte offset 12. *)
Theorem CompositeMap_reads_past_short_tile :
  let g := grid 2 2 2 2 2 in
  let st := (CompositeMap env_1x1 2 2 2 2 1 2 empty_state).2 in
  grid_cells g = [(0, 0); (1, 0); (0, 1); (1, 1)]
  /\ Forall (fun cell =>
               g_tileCache st !! cell_key 1 g cell
               = Some (byte_of <$> [1; 2; 3; 4]%N))
            (grid_cells g)
  /\ (LoadAndDecodeTile env_1x1 0 0 1 2 st).1 = byte_of <$> [1; 2; 3; 4]%N
  /\ blit_tile 2 2 2 (-1) (-1) (byte_of <$> [1; 2; 3; 4]%N)
               (vector_fill (2 * 2 * 4)) = ReadOutOfBounds
  /\ (CompositeMap env_1x1 2 2 2 2 1 2 st).1 = ReadOutOfBounds.
Proof.
  split; [vm_compute; reflexivity|].
  split; [vm_compute; repeat constructor|].
  repeat split; vm_compute; reflexivity.
Qed.

(** ** A composite whose tiles all have the right size *)

Lemma placed_under_grid W H tileSize dx dy g tiles (k : nat) :
  under_grid W H tileSize dx dy g k ->
  exists tx ty i j c,
    (0 <= tx < numTilesX g /\ 0 <= ty < numTilesY g)
    /\ (0 <= i < tileSize /\ 0 <= j < tileSize /\ 0 <= c < 4)
    /\ placed W tileSize dx dy tiles k
       = tiles tx ty !! Z.to_nat ((j * tileSize + i) * 4 + c).
Proof.
  intros (tx & ty & Hx & Hy & x & y & c & -> & Hxr & Hyr & Hc & Hsx & Hsy).
  exists tx, ty, (x - dx - tx * tileSize), (y - dy - ty * tileSize), c.
  split; [done|]. split; [lia|].
  apply placed_at; lia.
Qed.

Lemma mapS_length {A B} (f : A -> State -> B * State) l st :
  length (mapS f l st).1 = length l.
Proof.
  revert st. induction l as [|a l IH]; intros st; simpl; [done|].
  destruct (f a st) as [b st1]. specialize (IH st1).
  destruct (mapS f l st1) as [bs st2]. simpl in *. by rewrite IH.
Qed.

(** Any list of futures of the length of the grid is the list of the
    tiles of some assignment of images to cells. *)
Lemma futures_as_tiles g (futures : list (list byte)) :
  0 < numTilesX g ->
  length futures = length (grid_cells g) ->
  futures
  = futures_of g (fun tx ty =>
      default [] (futures !! Z.to_nat (ty * numTilesX g + tx))).
Proof.
  intros HX Hlen. apply list_eq. intros n. unfold futures_of.
  rewrite list_lookup_fmap.
  destruct (decide (n < length futures)%nat) as [Hn|Hn].
  - assert (0 < numTilesY g) as HY.
    { destruct (decide (0 < numTilesY g)) as [|HY]; [done|].
      unfold grid_cells in Hlen. rewrite (seqZ_nil 0 (numTilesY g)) in Hlen
        by lia. simpl in Hlen. lia. }
    pose proof (length_grid_cells g ltac:(lia) ltac:(lia)) as Hg.
    replace n with (Z.to_nat (Z.of_nat n)) at 2 by lia.
    rewrite lookup_grid_cells by lia. simpl.
    pose proof (Z.div_mod (Z.of_nat n) (numTilesX g) ltac:(lia)) as Hdm.
    replace (Z.to_nat (Z.of_nat n / numTilesX g * numTilesX g
                       + Z.of_nat n mod numTilesX g)) with n by lia.
    destruct (lookup_lt_is_Some_2 futures n Hn) as [px ->]. done.
  - rewrite (lookup_ge_None_2 futures) by lia.
    rewrite (lookup_ge_None_2 (grid_cells g)) by lia. done.
Qed.

Lemma grid_nonempty finalWidth finalHeight centerX centerY tileSize :
  let g := grid finalWidth finalHeight centerX centerY tileSize in
  0 <= finalWidth -> 0 <= finalHeight -> 0 < tileSize ->
  0 < numTilesX g /\ 0 < numTilesY g.
Proof.
  intros g HW HH Hts. subst g. unfold grid.
  cbn [numTilesX numTilesY]. unfold Dbl.floor, Dbl.of_int.
  assert (forall (tl : Q) (d : Z), 0 <= d ->
            Qfloor (tl / inject_Z tileSize)
            <= Qfloor ((tl + inject_Z d) / inject_Z tileSize)) as Hmono.
  { intros tl d Hd. apply Qfloor_resp_le.
    unfold Qdiv. apply Qmult_le_compat_r.
    - rewrite <- (Qplus_0_r tl) at 1. apply Qplus_le_r.
      change 0%Q with (inject_Z 0). by rewrite <- Zle_Qle.
    - apply Qinv_le_0_compat. change 0%Q with (inject_Z 0).
      rewrite <- Zle_Qle. lia. }
  pose proof (Hmono (centerX - inject_Z finalWidth / 2)%Q finalWidth HW).
  pose proof (Hmono (centerY - inject_Z finalHeight / 2)%Q finalHeight HH).
  lia.
Qed.

(** When every tile handed to the blit has [tileSize*tileSize*4] bytes the
    composite returns a raster of [finalWidth*finalHeight*4] bytes in which
    every byte that lies under no tile is still the white of the
    background, and which is white throughout when all tiles are the
    fallback tile. *)
Lemma CompositeMap_sized_tiles env finalWidth finalHeight centerX centerY
    zoom tileSize st :
  let g := grid finalWidth finalHeight centerX centerY tileSize in
  let futures := (launch_tiles env zoom tileSize g st).1 in
  0 <= finalWidth -> 0 <= finalHeight -> 0 < tileSize ->
  Forall (fun px => Z.of_nat (length px) = tileSize * tileSize * 4)
         futures ->
  exists raster,
    (CompositeMap env finalWidth finalHeight centerX centerY zoom tileSize
                  st).1 = Ok raster
    /\ length raster = Z.to_nat (finalWidth * finalHeight * 4)
    /\ (forall k : nat,
          ~ under_grid finalWidth finalHeight tileSize
              (tile_offset 0 tileSize (topLeftX g))
              (tile_offset 0 tileSize (topLeftY g)) g k ->
          raster !! k = vector_fill (finalWidth * finalHeight * 4) !! k)
    /\ (Forall (fun px => px = vector_fill (tileSize * tileSize * 4))
               futures ->
        raster = vector_fill (finalWidth * finalHeight * 4)).
Proof.
  intros g futures HW HH Hts Hsized.
  destruct (grid_nonempty finalWidth finalHeight centerX centerY tileSize
              HW HH Hts) as [HX HY]. fold g in HX, HY.
  assert (length futures = length (grid_cells g)) as Hlen
    by apply mapS_length.
  pose proof (futures_as_tiles g futures HX Hlen) as Hfut.
  set (tiles := fun tx ty =>
         default [] (futures !! Z.to_nat (ty * numTilesX g + tx))) in Hfut.
  assert (Htiles : forall (P : list byte -> Prop) tx ty,
            Forall P futures ->
            0 <= tx < numTilesX g -> 0 <= ty < numTilesY g ->
            P (tiles tx ty)).
  { intros P tx ty HP Hx Hy. unfold tiles.
    pose proof (length_grid_cells g ltac:(lia) ltac:(lia)) as Hg.
    destruct (lookup_lt_is_Some_2 futures
                (Z.to_nat (ty * numTilesX g + tx))) as [px Hpx]; [nia|].
    rewrite Hpx. simpl. by eapply Forall_lookup_1. }
  pose proof (composite_tiles_paints finalWidth finalHeight tileSize g tiles
                HW HH Hts
                (fun tx ty Hx Hy => Htiles _ tx ty Hsized Hx Hy)) as Hp.
  destruct (Hp (vector_fill (finalWidth * finalHeight * 4))
               (length_vector_fill _)) as (raster & Hr & Hl & Hk).
  exists raster. unfold CompositeMap. fold g.
  destruct (launch_tiles env zoom tileSize g st) as [fs st1] eqn:Hlaunch.
  subst futures. cbn [fst] in *. rewrite <- Hfut in Hr.
  split; [exact Hr|]. split; [exact Hl|]. split.
  - intros k Hn. destruct (Hk k) as [[_ HR]|[He _]]; [done|exact He].
  - intros Hwhite. apply list_eq. intros k.
    destruct (Hk k) as [[He HR]|[He _]]; [|exact He].
    rewrite He.
    destruct (placed_under_grid _ _ _ _ _ _ tiles k HR)
      as (tx & ty & i & j & c & [Hx Hy] & (Hi & Hj & Hc) & ->).
    rewrite (Htiles _ tx ty Hwhite Hx Hy).
    unfold vector_fill. rewrite lookup_replicate_2 by nia.
    assert (k < Z.to_nat (finalWidth * finalHeight * 4))%nat as Hkl.
    { destruct HR as (_ & _ & _ & _ & x & y & c' & -> & Hxr & Hyr & Hc' & _).
      unfold byte_index. nia. }
    by rewrite lookup_replicate_2.
Qed.

(** With a warm cache whose entries for the grid all have
    [tileSize*tileSize*4] bytes, two composites with identical arguments
    return one and the same raster, of [finalWidth*finalHeight*4] bytes,
    and neither sends a request, also when the network would by then
    answer differently. *)
Lemma CompositeMap_warm_sized_idempotent env env' finalWidth finalHeight
    centerX centerY zoom tileSize st :
  let g := grid finalWidth finalHeight centerX centerY tileSize in
  let first :=
    CompositeMap env finalWidth finalHeight centerX centerY zoom tileSize st in
  let second :=
    CompositeMap env' finalWidth finalHeight centerX centerY zoom tileSize
                 first.2 in
  0 <= finalWidth -> 0 <= finalHeight -> 0 < tileSize ->
  (forall tx ty,
     0 <= tx < numTilesX g -> 0 <= ty < numTilesY g ->
     exists px,
       g_tileCache st !! mkTileKey zoom (startTileX g + tx)
                                   (startTileY g + ty) = Some px
       /\ Z.of_nat (length px) = tileSize * tileSize * 4) ->
  exists raster,
    first.1 = Ok raster /\ second.1 = Ok raster
    /\ length raster = Z.to_nat (finalWidth * finalHeight * 4)
    /\ requests first.2 = requests st
    /\ requests second.2 = requests st.
Proof.
  intros g first second HW HH Hts Hsized.
  assert (warm zoom g st) as Hw.
  { intros tx ty Hx Hy. destruct (Hsized tx ty Hx Hy) as (px & -> & _).
    by eexists. }
  destruct (CompositeMap_warm env env' finalWidth finalHeight centerX centerY
              zoom tileSize st Hw) as [Hst Heq].
  destruct (warm_futures zoom g st Hw) as (futures & Hf).
  assert (Forall (fun px => Z.of_nat (length px) = tileSize * tileSize * 4)
                 (launch_tiles env zoom tileSize g st).1) as Hall.
  { rewrite (launch_tiles_hits zoom tileSize g env futures st Hf).
    cbn [fst]. apply Forall_lookup. intros idx px Hpx.
    destruct (Forall2_lookup_r _ _ _ _ _ Hf Hpx) as ([tx ty] & Hcell & Hc).
    apply list_elem_of_lookup_2, elem_of_grid_cells in Hcell as [Hx Hy].
    destruct (Hsized tx ty Hx Hy) as (px' & Hpx' & Hsz).
    unfold cell_key in Hc. cbn [fst snd] in Hc. congruence. }
  destruct (CompositeMap_sized_tiles env finalWidth finalHeight centerX
              centerY zoom tileSize st HW HH Hts Hall)
    as (raster & Hr & Hl & _).
  exists raster. subst first second. rewrite Hst, Heq, Hst. done.
Qed.

Lemma mapS_Forall_inv {A B} (Inv : State -> Prop) (P : B -> Prop)
    (f : A -> State -> B * State) (l : list A) (st : State) :
  Inv st ->
  (forall a st', a ∈ l -> Inv st' -> P (f a st').1 /\ Inv (f a st').2) ->
  Forall P (mapS f l st).1 /\ Inv (mapS f l st).2.
Proof.
  revert st. induction l as [|a l IH]; intros st Hst H; simpl.
  { split; [constructor|done]. }
  destruct (H a st (list_elem_of_here _ _) Hst) as [Hfa Hinv].
  destruct (f a st) as [b st1]; simpl in *.
  destruct (IH st1 Hinv) as [IH1 IH2].
  { intros a' st' Ha'. apply H. by right. }
  destruct (mapS f l st1) as [bs st2]; simpl in *.
  split; [by constructor|done].
Qed.

(** A property of every cached image and of everything a fetch can yield
    is a property of every future. *)
Lemma launch_tiles_Forall (P : list byte -> Prop) env zoom tileSize g st :
  (forall key st', P (fetch_and_decode env key tileSize st').1) ->
  (forall key image, g_tileCache st !! key = Some image -> P image) ->
  Forall P (launch_tiles env zoom tileSize g st).1.
Proof.
  intros Hfetch Hcache. unfold launch_tiles.
  apply (mapS_Forall_inv
           (fun st' => forall key image,
              g_tileCache st' !! key = Some image -> P image));
    [done|].
  intros [tx ty] st' _ Hst'.
  destruct (g_tileCache st'
              !! mkTileKey zoom (startTileX g + tx) (startTileY g + ty))
    as [px|] eqn:Hc.
  { rewrite (LoadAndDecodeTile_hit _ _ _ _ _ _ _ Hc).
    split; [by eapply Hst'|done]. }
  rewrite (LoadAndDecodeTile_miss _ _ _ _ _ _ Hc). cbv zeta.
  split; [apply Hfetch|].
  intros key image. unfold store. cbn [fst snd g_tileCache].
  replace (g_tileCache (fetch_and_decode env
             (mkTileKey zoom (startTileX g + tx) (startTileY g + ty))
             tileSize st').2) with (g_tileCache st') by done.
  rewrite emplace_absent by done.
  destruct (decide (mkTileKey zoom (startTileX g + tx) (startTileY g + ty)
                    = key)) as [<-|Hne].
  - rewrite lookup_insert_eq. intros [= <-].
    exact (Hfetch (mkTileKey zoom (startTileX g + tx) (startTileY g + ty))
                  st').
  - rewrite lookup_insert_ne by done. apply Hst'.
Qed.

(** When no tile can be fetched or decoded, a composite from an empty
    cache is white throughout. *)
Lemma CompositeMap_offline env finalWidth finalHeight centerX centerY
    zoom tileSize :
  0 <= finalWidth -> 0 <= finalHeight -> 0 < tileSize ->
  (forall n url data,
     DownloadURL env n url = Some data ->
     stbi_load_from_memory env data = None) ->
  (CompositeMap env finalWidth finalHeight centerX centerY zoom tileSize
                empty_state).1
  = Ok (vector_fill (finalWidth * finalHeight * 4))
  /\ Forall (fun b => Byte.to_N b = 255%N)
            (vector_fill (finalWidth * finalHeight * 4)).
Proof.
  intros HW HH Hts Hfail.
  split; [|apply Forall_replicate, white_is_255].
  assert (Forall (fun px => px = vector_fill (tileSize * tileSize * 4))
            (launch_tiles env zoom tileSize
               (grid finalWidth finalHeight centerX centerY tileSize)
               empty_state).1) as Hwhite.
  { apply launch_tiles_Forall.
    - intros key st'. unfold fetch_and_decode. cbn [fst].
      destruct (DownloadURL env _ _) as [data|] eqn:Hd; [|done].
      by rewrite (Hfail _ _ _ Hd).
    - intros key image H. unfold empty_state in H. cbn [g_tileCache] in H.
      rewrite lookup_empty in H. discriminate. }
  destruct (CompositeMap_sized_tiles env finalWidth finalHeight centerX
              centerY zoom tileSize empty_state HW HH Hts)
    as (raster & Hr & _ & _ & Hall).
  { eapply Forall_impl; [exact Hwhite|].
    intros px ->. rewrite length_vector_fill. nia. }
  rewrite Hr. f_equal. by apply Hall.
Qed.

(** The zoom-1 scenario: a 256x256 viewport centred on the projection of
    longitude 0, latitude 0, with no tile available. *)
Lemma composite_zoom1_offline :
  grid_cells (grid 256 256 256 256 256) = [(0, 0); (1, 0); (0, 1); (1, 1)]
  /\ startTileX (grid 256 256 256 256 256) = 0
  /\ startTileY (grid 256 256 256 256 256) = 0
  /\ (CompositeMap env_offline 256 256 256 256 1 256 empty_state).1
     = Ok (vector_fill (256 * 256 * 4)).
Proof.
  split; [vm_compute; reflexivity|].
  split; [vm_compute; reflexivity|].
  split; [vm_compute; reflexivity|].
  apply CompositeMap_offline; [lia..|]. intros n url data H. discriminate.
Qed.

(** ** Further facts about placement and about concurrent calls *)

Lemma trunc_Z m : Dbl.trunc (inject_Z m) = m.
Proof.
  unfold Dbl.trunc. destruct (Qle_bool 0 (inject_Z m));
    [apply Qfloor_Z|apply Qceiling_Z].
Qed.

(** When the corner lies exactly on a tile boundary, whatever its sign,
    tile column [t] is placed at [t*tileSize]; the first column at 0. *)
Lemma tile_offset_on_boundary t tileSize topLeft :
  0 < tileSize ->
  (floor_mod topLeft (inject_Z tileSize) == 0)%Q ->
  tile_offset t tileSize topLeft = t * tileSize.
Proof.
  intros Hts Hmod. unfold floor_mod in Hmod.
  set (m := Qfloor (topLeft / inject_Z tileSize)) in *.
  assert (~ (inject_Z tileSize == 0)%Q) as Hnz.
  { change 0%Q with (inject_Z 0). rewrite inject_Z_injective. lia. }
  assert (topLeft == inject_Z m * inject_Z tileSize)%Q as Htl.
  { rewrite <- (Qplus_0_l (inject_Z m * inject_Z tileSize)), <- Hmod. ring. }
  assert (topLeft / inject_Z tileSize == inject_Z m)%Q as Hdiv.
  { rewrite Htl. by apply Qdiv_mult_l. }
  unfold tile_offset, Dbl.fmod, Dbl.floor, Dbl.of_int.
  rewrite (trunc_comp _ _ Hdiv), trunc_Z.
  rewrite <- (Qfloor_Z (t * tileSize)). apply Qfloor_comp.
  rewrite inject_Z_mult, Htl. ring.
Qed.

(** Whatever other calls do in between, once a call has stored its result
    the tile id has an entry, so that later calls do not fetch it. *)
Lemma store_caches key pixels st :
  is_Some (g_tileCache (store key pixels st) !! key).
Proof. unfold store. cbn [g_tileCache]. by rewrite emplace_lookup_same. Qed.

(** With every tile in the cache, concurrent calls only read: in any
    interleaving the state, and with it the list of requests, stays as it
    is. *)
Lemma warm_pool_steps env c c' :
  pool_steps env c c' ->
  (forall t, t ∈ c.1 ->
     match t with
     | Called key _ => is_Some (g_tileCache c.2 !! key)
     | Returned _ => True
     | _ => False
     end) ->
  c'.2 = c.2.
Proof.
  induction 1 as [|c1 c2 c3 Hstep _ IH]; intros Hpool; [done|].
  destruct Hstep as [i t t' pool st st' Hi Hs]. simpl in *.
  pose proof (Hpool t (list_elem_of_lookup_2 _ _ _ Hi)) as Ht.
  destruct t as [key ts|key ts|key px|px]; try done.
  simpl in Hs. destruct Ht as [cached Hc]. rewrite Hc in Hs.
  injection Hs as <- <-.
  apply IH. intros t Hin.
  apply list_elem_of_lookup in Hin as [j Hj].
  rewrite list_lookup_insert in Hj. case_decide.
  - by injection Hj as <-.
  - apply Hpool. by eapply list_elem_of_lookup_2.
Qed.

(** * Further properties of the code *)

(** ** The hash of a tile key *)

Lemma land_shiftl_low a n b :
  0 <= n -> 0 <= b < 2 ^ n -> Z.land (Z.shiftl a n) b = 0.
Proof.
  intros Hn Hb. apply Z.bits_inj'. intros i Hi.
  rewrite Z.land_spec, Z.bits_0.
  destruct (decide (i < n)) as [Hlt|Hge].
  - by rewrite Z.shiftl_spec_low.
  - rewrite <- (Z.mod_small b (2 ^ n)) by done.
    rewrite Z.mod_pow2_bits_high by lia. apply andb_false_r.
Qed.

Lemma TileKeyHash_value k :
  0 <= key_z k < 2 ^ 22 -> 0 <= key_x k < 2 ^ 21 -> 0 <= key_y k < 2 ^ 21 ->
  TileKeyHash k = key_z k * 2 ^ 42 + key_x k * 2 ^ 21 + key_y k.
Proof.
  intros Hz Hx Hy. unfold TileKeyHash, shl_size_t, to_size_t.
  rewrite !(Z.mod_small (key_z k)), !(Z.mod_small (key_x k)),
    !(Z.mod_small (key_y k)) by lia.
  rewrite !Z.shiftl_mul_pow2 by lia.
  rewrite !Z.mod_small by lia.
  rewrite <- (Z.add_nocarry_lxor (key_z k * 2 ^ 42) (key_x k * 2 ^ 21)).
  2:{ rewrite <- (Z.shiftl_mul_pow2 (key_z k) 42) by lia.
      apply land_shiftl_low; lia. }
  rewrite <- Z.add_nocarry_lxor; [done|].
  replace (key_z k * 2 ^ 42 + key_x k * 2 ^ 21)
    with (Z.shiftl (key_z k * 2 ^ 21 + key_x k) 21)
    by (rewrite Z.shiftl_mul_pow2 by lia; lia).
  apply land_shiftl_low; lia.
Qed.

(** X1: distinct tile keys whose zoom is below [2^22] and whose indices
    are below [2^21] (every tile up to zoom 21) have distinct values of
    [TileKeyHash]. *)
Theorem TileKeyHash_injective (k1 k2 : TileKey) :
  0 <= key_z k1 < 2 ^ 22 -> 0 <= key_x k1 < 2 ^ 21 ->
  0 <= key_y k1 < 2 ^ 21 ->
  0 <= key_z k2 < 2 ^ 22 -> 0 <= key_x k2 < 2 ^ 21 ->
  0 <= key_y k2 < 2 ^ 21 ->
  k1 <> k2 -> TileKeyHash k1 <> TileKeyHash k2.
Proof.
  intros Hz1 Hx1 Hy1 Hz2 Hx2 Hy2 Hne.
  rewrite !TileKeyHash_value by done.
  destruct k1 as [z1 x1 y1], k2 as [z2 x2 y2]; simpl in *.
  intros Heq. apply Hne. f_equal; lia.
Qed.

Lemma TileKeyHash_injective_witness :
  TileKeyHash (mkTileKey 16 12345 6789) <> TileKeyHash (mkTileKey 16 6789 12345).
Proof.
  apply (TileKeyHash_injective (mkTileKey 16 12345 6789)
           (mkTileKey 16 6789 12345)); simpl; try lia.
  discriminate.
Defined.

(** ** The download buffer *)

Lemma singleton_of_length_1 {A} (l : list A) :
  length l = 1%nat -> exists a, l = [a].
Proof. destruct l as [|a [|??]]; try done. by exists a. Qed.

(** One successful call on a buffer that holds [data] and one more byte
    appends the chunk, terminates the buffer with a NUL and reports the
    length of the chunk. *)
Lemma WriteMemoryCallback_appends junk contents sz nmemb data b :
  Z.of_nat (length contents) = sz * nmemb ->
  Z.of_nat (length data) + sz * nmemb + 1 < 2 ^ 64 ->
  WriteMemoryCallback true junk contents sz nmemb
    (mkMemoryStruct (Some (data ++ [b])) (Z.of_nat (length data)))
  = Ok (sz * nmemb,
        mkMemoryStruct (Some ((data ++ contents) ++ [Byte.x00]))
                       (Z.of_nat (length (data ++ contents)))).
Proof.
  intros Hlen Hfit. unfold WriteMemoryCallback.
  set (rs := sz * nmemb) in *.
  assert (0 <= rs) as Hrs by lia.
  rewrite (Z.mod_small rs) by lia.
  rewrite (Z.mod_small (Z.of_nat (length data) + rs + 1)) by lia.
  rewrite (Z.mod_small (Z.of_nat (length data) + rs)) by lia.
  unfold realloc. simpl default.
  rewrite take_ge by (rewrite length_app; simpl; lia).
  replace ((data ++ [b])
           ++ replicate (Z.to_nat (Z.of_nat (length data) + rs + 1)
                         - length (data ++ [b])) junk)
    with (data ++ b :: replicate (Z.to_nat rs) junk).
  2:{ rewrite <- (assoc_L (++)). simpl. do 3 f_equal.
      rewrite length_app. simpl. lia. }
  rewrite memcpy_in_bounds;
    [|lia|lia|lia|rewrite length_app; simpl; rewrite length_replicate; lia].
  simpl obind.
  rewrite Nat2Z.id, take_app_length.
  replace (Z.to_nat 0) with 0%nat by lia. rewrite drop_0.
  rewrite take_ge by lia.
  replace (Z.to_nat (Z.of_nat (length data) + rs))
    with (length data + Z.to_nat rs)%nat by lia.
  rewrite drop_app_add.
  destruct (singleton_of_length_1
              (drop (Z.to_nat rs) (b :: replicate (Z.to_nat rs) junk)))
    as [c ->].
  { rewrite length_drop. simpl. rewrite length_replicate. lia. }
  assert (((Z.of_nat (length data) + rs <? 0)
           || (Z.of_nat (length (data ++ contents ++ [c]))
               <=? Z.of_nat (length data) + rs)) = false) as ->.
  { rewrite !length_app. simpl.
    apply orb_false_iff. rewrite Z.ltb_ge, Z.leb_gt. lia. }
  f_equal. f_equal. f_equal; [|rewrite length_app; lia].
  f_equal.
  replace (length data + Z.to_nat rs)%nat
    with (length (data ++ contents) + 0)%nat
    by (rewrite length_app; lia).
  rewrite (assoc_L (++) data contents [c]).
  by rewrite insert_app_r.
Qed.

Lemma receive_from junk chunks data b :
  Z.of_nat (length data + length (concat chunks)) + 1 < 2 ^ 64 ->
  receive junk chunks
    (mkMemoryStruct (Some (data ++ [b])) (Z.of_nat (length data)))
  = Ok (mkMemoryStruct
          (Some ((data ++ concat chunks)
                 ++ [if decide (chunks = []) then b else Byte.x00]))
          (Z.of_nat (length (data ++ concat chunks)))).
Proof.
  revert data b. induction chunks as [|chunk rest IH]; intros data b Hfit.
  { simpl. by rewrite app_nil_r. }
  cbn [receive concat] in *. rewrite length_app in Hfit.
  rewrite (WriteMemoryCallback_appends junk chunk 1
             (Z.of_nat (length chunk)) data b) by lia.
  cbn [obind snd]. rewrite IH by (rewrite length_app; lia).
  rewrite (assoc_L (++) data chunk (concat rest)).
  by destruct (decide (rest = [])).
Qed.

(** X2: after the write callbacks of a transfer the buffer of
    [DownloadURL] holds the chunks of the body in order, followed by a NUL
    byte, and [size] is the number of body bytes, as long as the body and
    the NUL fit into [size_t]. *)
Theorem receive_concatenates (junk : byte) (chunks : list (list byte)) :
  chunks <> [] ->
  Z.of_nat (length (concat chunks)) + 1 < 2 ^ 64 ->
  receive junk chunks (fresh_chunk junk)
  = Ok (mkMemoryStruct (Some (concat chunks ++ [Byte.x00]))
                       (Z.of_nat (length (concat chunks)))).
Proof.
  intros Hne Hfit. unfold fresh_chunk.
  change (mkMemoryStruct (Some [junk]) 0)
    with (mkMemoryStruct (Some ([] ++ [junk])) (Z.of_nat (length (@nil byte)))).
  rewrite (receive_from junk chunks [] junk) by (simpl; lia).
  simpl. by destruct (decide (chunks = [])).
Qed.

Lemma receive_concatenates_witness :
  receive Byte.xff [[Byte.x01; Byte.x02]; []; [Byte.x03]]
          (fresh_chunk Byte.xff)
  = Ok (mkMemoryStruct
          (Some (concat [[Byte.x01; Byte.x02]; []; [Byte.x03]] ++ [Byte.x00]))
          (Z.of_nat (length (concat [[Byte.x01; Byte.x02]; []; [Byte.x03]])))).
Proof.
  apply receive_concatenates; [discriminate|].
  vm_compute. reflexivity.
Defined.

(** ** The requests of a composite *)

Lemma NoDup_grid_cells g : NoDup (grid_cells g).
Proof.
  unfold grid_cells. apply NoDup_bind.
  - intros ty1 ty2 cell _ _ H1 H2.
    apply list_elem_of_bind in H1 as (tx1 & H1 & _).
    apply list_elem_of_bind in H2 as (tx2 & H2 & _).
    apply list_elem_of_singleton in H1, H2. congruence.
  - intros ty _. apply NoDup_bind.
    + intros tx1 tx2 cell _ _ H1 H2.
      apply list_elem_of_singleton in H1, H2. congruence.
    + intros tx _. apply NoDup_singleton.
    + apply NoDup_seqZ.
  - apply NoDup_seqZ.
Qed.

Lemma filter_ext_in {A} (P Q : A -> Prop)
    `{!forall x, Decision (P x)} `{!forall x, Decision (Q x)} (l : list A) :
  (forall x, x ∈ l -> P x <-> Q x) -> filter P l = filter Q l.
Proof.
  induction l as [|a l IH]; intros Hiff; [done|].
  rewrite !filter_cons.
  rewrite IH by (intros x Hx; apply Hiff; by right).
  pose proof (Hiff a (list_elem_of_here _ _)) as Ha.
  destruct (decide (P a)) as [HP|HP], (decide (Q a)) as [HQ|HQ];
    try done; tauto.
Qed.

Lemma LoadAndDecodeTile_other env tileX tileY zoom tileSize st key :
  key <> mkTileKey zoom tileX tileY ->
  g_tileCache (LoadAndDecodeTile env tileX tileY zoom tileSize st).2 !! key
  = g_tileCache st !! key.
Proof.
  intros Hne. unfold LoadAndDecodeTile.
  destruct (g_tileCache st !! mkTileKey zoom tileX tileY) eqn:Hc; [done|].
  simpl. rewrite emplace_absent by done. by rewrite lookup_insert_ne.
Qed.

Lemma LoadAndDecodeTile_requests env tileX tileY zoom tileSize st :
  requests (LoadAndDecodeTile env tileX tileY zoom tileSize st).2
  = requests st
    ++ (if decide (g_tileCache st !! mkTileKey zoom tileX tileY = None)
        then [tile_url zoom tileX tileY] else []).
Proof.
  unfold LoadAndDecodeTile.
  destruct (g_tileCache st !! mkTileKey zoom tileX tileY) eqn:Hc; simpl.
  - by rewrite app_nil_r.
  - done.
Qed.

Lemma launch_tiles_requests env zoom tileSize g cells st :
  NoDup cells ->
  requests
    (mapS (fun '(tx, ty) =>
             LoadAndDecodeTile env (startTileX g + tx) (startTileY g + ty)
                               zoom tileSize) cells st).2
  = requests st
    ++ ((fun cell =>
           tile_url zoom (startTileX g + cell.1) (startTileY g + cell.2))
        <$> filter (fun cell =>
                      g_tileCache st !! cell_key zoom g cell = None) cells).
Proof.
  revert st. induction cells as [|[tx ty] cells IH]; intros st Hnd.
  { simpl. by rewrite app_nil_r. }
  apply NoDup_cons in Hnd as [Hnotin Hnd].
  cbn [mapS].
  pose proof (LoadAndDecodeTile_requests env (startTileX g + tx)
                (startTileY g + ty) zoom tileSize st) as Hreq.
  pose proof (fun key =>
                LoadAndDecodeTile_other env (startTileX g + tx)
                  (startTileY g + ty) zoom tileSize st key) as Hother.
  destruct (LoadAndDecodeTile env (startTileX g + tx) (startTileY g + ty)
              zoom tileSize st) as [px st1].
  specialize (IH st1 Hnd).
  destruct (mapS _ cells st1) as [pxs st2]. cbn [snd] in *.
  rewrite IH, Hreq, <- (assoc_L (++)). f_equal.
  rewrite (filter_ext_in
             (fun cell => g_tileCache st1 !! cell_key zoom g cell = None)
             (fun cell => g_tileCache st !! cell_key zoom g cell = None)).
  2:{ intros [tx' ty'] Hin. rewrite Hother; [done|].
      unfold cell_key. simpl. intros [= Hx Hy].
      apply Hnotin. replace tx with tx' by lia. by replace ty with ty' by lia. }
  rewrite filter_cons.
  change (cell_key zoom g (tx, ty))
    with (mkTileKey zoom (startTileX g + tx) (startTileY g + ty)).
  by destruct (decide (g_tileCache st
                 !! mkTileKey zoom (startTileX g + tx) (startTileY g + ty)
                 = None)).
Qed.


Lemma Forall2_exists_l {A B} (P : A -> B -> Prop) l k :
  Forall2 P l k -> Forall (fun a => exists b, P a b) l.
Proof. induction 1; constructor; eauto. Qed.


(** The compositor of [c1.cpp] has no cache. *)
Lemma LoadTileImage_state env url st :
  (C1_cpp.LoadTileImage env url st).2
  = mkState (g_tileCache st) (requests st ++ [url]).
Proof.
  unfold C1_cpp.LoadTileImage.
  destruct (DownloadURL env _ url) as [data|]; [|done].
  by destruct (stbi_load_from_memory env data) as [[[w h] img]|].
Qed.

Lemma mapS_appends {A B} (f : A -> State -> B * State)
    (u : A -> list string) (l : list A) (st : State) :
  (forall a st', (f a st').2
                 = mkState (g_tileCache st') (requests st' ++ u a)) ->
  (mapS f l st).2 = mkState (g_tileCache st) (requests st ++ l ≫= u).
Proof.
  intros Hf. revert st. induction l as [|a l IH]; intros st.
  { simpl. rewrite app_nil_r. by destruct st. }
  cbn [mapS]. specialize (Hf a st).
  destruct (f a st) as [b st1]. specialize (IH st1).
  destruct (mapS f l st1) as [bs st2]. cbn [snd] in *.
  rewrite IH, Hf. cbn [g_tileCache requests].
  by rewrite bind_cons, (assoc_L (++)).
Qed.

Lemma bind_rows_fmap {A B C} (f : A * B -> C) (ys : list B) (xs : list A) :
  ys ≫= (fun ty => xs ≫= fun tx => [f (tx, ty)])
  = f <$> (ys ≫= fun ty => xs ≫= fun tx => [(tx, ty)]).
Proof.
  induction ys as [|ty tys IHy]; [done|].
  rewrite !bind_cons, fmap_app, IHy. f_equal. clear IHy.
  induction xs as [|tx txs IHx]; [done|].
  by rewrite !bind_cons, fmap_app, IHx.
Qed.

Lemma load_tiles_state env zoom g st :
  (C1_cpp.load_tiles env zoom g st).2
  = mkState (g_tileCache st)
      (requests st
       ++ ((fun cell =>
              tile_url zoom (startTileX g + cell.1) (startTileY g + cell.2))
           <$> grid_cells g)).
Proof.
  unfold C1_cpp.load_tiles.
  rewrite (mapS_appends _
    (fun ty =>
       seqZ 0 (numTilesX g)
         ≫= fun tx =>
              [tile_url zoom (startTileX g + tx) (startTileY g + ty)])).
  2:{ intros ty st'. apply mapS_appends.
      intros tx st''. apply LoadTileImage_state. }
  f_equal. f_equal. unfold grid_cells.
  exact (bind_rows_fmap
           (fun cell =>
              tile_url zoom (startTileX g + cell.1) (startTileY g + cell.2))
           (seqZ 0 (numTilesY g)) (seqZ 0 (numTilesX g))).
Qed.


(** ** The size of the grid and the tiles under a pixel *)

Lemma inject_Z_pos (z : Z) : 0 < z -> (0 < inject_Z z)%Q.
Proof. intros Hz. change 0%Q with (inject_Z 0). by rewrite <- Zlt_Qlt. Qed.

Lemma floor_div_mono (a b : Q) (tileSize : Z) :
  0 < tileSize -> (a <= b)%Q ->
  Qfloor (a / inject_Z tileSize) <= Qfloor (b / inject_Z tileSize).
Proof.
  intros Hts Hab. apply Qfloor_resp_le.
  unfold Qdiv. apply Qmult_le_compat_r; [done|].
  apply Qinv_le_0_compat, Qlt_le_weak. by apply inject_Z_pos.
Qed.

Lemma floor_div_add (tl : Q) (d tileSize : Z) :
  0 < tileSize ->
  Qfloor ((tl + inject_Z d) / inject_Z tileSize)
  <= Qfloor (tl / inject_Z tileSize) + d / tileSize + 1.
Proof.
  intros Hts. rewrite (Zdiv_Qdiv d tileSize).
  set (A := (tl / inject_Z tileSize)%Q).
  set (B := (inject_Z d / inject_Z tileSize)%Q).
  assert ((tl + inject_Z d) / inject_Z tileSize == A + B)%Q as ->.
  { unfold A, B. field. intros H0.
    pose proof (inject_Z_pos tileSize Hts) as Hp. rewrite H0 in Hp.
    by apply Qlt_irrefl in Hp. }
  apply Z.lt_succ_r. rewrite Zlt_Qlt.
  eapply Qle_lt_trans; [apply Qfloor_le|].
  replace (Z.succ (Qfloor A + Qfloor B + 1))
    with ((Qfloor A + 1) + (Qfloor B + 1)) by lia.
  rewrite inject_Z_plus.
  apply Qplus_lt_le_compat; [apply Qlt_floor|].
  apply Qlt_le_weak, Qlt_floor.
Qed.

(** X6: the grid of a viewport has at least one column and one row and at
    most [finalWidth/tileSize + 2] columns and [finalHeight/tileSize + 2]
    rows, wherever the centre lies; so a composite asks for at most
    [(finalWidth/tileSize + 2) * (finalHeight/tileSize + 2)] tiles. *)
Theorem grid_size_bounds
    (finalWidth finalHeight : Z) (centerX centerY : Q) (tileSize : Z) :
  let g := grid finalWidth finalHeight centerX centerY tileSize in
  0 <= finalWidth -> 0 <= finalHeight -> 0 < tileSize ->
  1 <= numTilesX g <= finalWidth / tileSize + 2
  /\ 1 <= numTilesY g <= finalHeight / tileSize + 2
  /\ 1 <= Z.of_nat (length (grid_cells g))
       <= (finalWidth / tileSize + 2) * (finalHeight / tileSize + 2).
Proof.
  intros g HW HH Hts.
  assert (1 <= numTilesX g <= finalWidth / tileSize + 2
          /\ 1 <= numTilesY g <= finalHeight / tileSize + 2) as [HX HY].
  { subst g. unfold grid. cbn [numTilesX numTilesY].
    unfold Dbl.floor, Dbl.of_int.
    pose proof (floor_div_add (centerX - inject_Z finalWidth / 2)%Q
                  finalWidth tileSize Hts).
    pose proof (floor_div_add (centerY - inject_Z finalHeight / 2)%Q
                  finalHeight tileSize Hts).
    pose proof (floor_div_mono (centerX - inject_Z finalWidth / 2)%Q
                  (centerX - inject_Z finalWidth / 2 + inject_Z finalWidth)%Q
                  tileSize Hts) as Hx.
    pose proof (floor_div_mono (centerY - inject_Z finalHeight / 2)%Q
                  (centerY - inject_Z finalHeight / 2
                   + inject_Z finalHeight)%Q
                  tileSize Hts) as Hy.
    assert (forall (q : Q) (d : Z), 0 <= d -> (q <= q + inject_Z d)%Q)
      as Hle.
    { intros q d Hd. rewrite <- (Qplus_0_r q) at 1. apply Qplus_le_r.
      change 0%Q with (inject_Z 0). by rewrite <- Zle_Qle. }
    specialize (Hx (Hle _ _ HW)). specialize (Hy (Hle _ _ HH)). lia. }
  split; [done|]. split; [done|].
  rewrite length_grid_cells by lia.
  pose proof (Z.div_pos finalWidth tileSize HW Hts).
  pose proof (Z.div_pos finalHeight tileSize HH Hts).
  nia.
Qed.

Lemma grid_size_bounds_witness :
  let g := grid 1000 1000 (131072 # 1) (131072 # 1) 256 in
  1 <= numTilesX g <= 1000 / 256 + 2
  /\ 1 <= numTilesY g <= 1000 / 256 + 2
  /\ 1 <= Z.of_nat (length (grid_cells g))
       <= (1000 / 256 + 2) * (1000 / 256 + 2).
Proof.
  apply (grid_size_bounds 1000 1000 (131072 # 1) (131072 # 1) 256); lia.
Defined.

(** X7: the range test of the per-pixel loop of [c1.cpp] never fails: the
    tile column and the tile row of every pixel of the raster lie in the
    grid, whatever the corner of the viewport is. *)
Theorem pixel_tile_in_grid
    (finalWidth finalHeight : Z) (centerX centerY : Q) (tileSize i j : Z) :
  let g := grid finalWidth finalHeight centerX centerY tileSize in
  let tileCol :=
    Dbl.floor ((topLeftX g + Dbl.of_int i) / Dbl.of_int tileSize)
    - startTileX g in
  let tileRow :=
    Dbl.floor ((topLeftY g + Dbl.of_int j) / Dbl.of_int tileSize)
    - startTileY g in
  0 < tileSize -> 0 <= i < finalWidth -> 0 <= j < finalHeight ->
  (0 <=? tileRow) && (tileRow <? numTilesY g)
  && (0 <=? tileCol) && (tileCol <? numTilesX g) = true.
Proof.
  intros g tileCol tileRow Hts Hi Hj.
  assert (forall (q : Q) (a b : Z), a <= b ->
            (q + inject_Z a <= q + inject_Z b)%Q) as Hle.
  { intros q a b Hab. apply Qplus_le_r. by rewrite <- Zle_Qle. }
  assert (forall (q : Q), (q + inject_Z 0 == q)%Q) as H0.
  { intros q. change (inject_Z 0) with 0%Q. ring. }
  subst tileCol tileRow g. unfold grid.
  cbn [numTilesX numTilesY startTileX startTileY topLeftX topLeftY].
  unfold Dbl.floor, Dbl.of_int.
  set (tlx := (centerX - inject_Z finalWidth / 2)%Q).
  set (tly := (centerY - inject_Z finalHeight / 2)%Q).
  pose proof (floor_div_mono _ _ tileSize Hts (Hle tlx 0 i ltac:(lia))) as X1.
  pose proof (floor_div_mono _ _ tileSize Hts
                (Hle tlx i finalWidth ltac:(lia))) as X2.
  pose proof (floor_div_mono _ _ tileSize Hts (Hle tly 0 j ltac:(lia))) as Y1.
  pose proof (floor_div_mono _ _ tileSize Hts
                (Hle tly j finalHeight ltac:(lia))) as Y2.
  rewrite (Qfloor_comp _ _ (Qdiv_comp _ _ (H0 tlx) _ _ (Qeq_refl _))) in X1.
  rewrite (Qfloor_comp _ _ (Qdiv_comp _ _ (H0 tly) _ _ (Qeq_refl _))) in Y1.
  repeat (apply andb_true_intro; split); lia.
Qed.

Lemma pixel_tile_in_grid_witness :
  let g := grid 600 400 (12 # 1) (7 # 1) 256 in
  (0 <=? Dbl.floor ((topLeftY g + Dbl.of_int 399) / Dbl.of_int 256)
         - startTileY g)
  && (Dbl.floor ((topLeftY g + Dbl.of_int 399) / Dbl.of_int 256)
      - startTileY g <? numTilesY g)
  && (0 <=? Dbl.floor ((topLeftX g + Dbl.of_int 0) / Dbl.of_int 256)
            - startTileX g)
  && (Dbl.floor ((topLeftX g + Dbl.of_int 0) / Dbl.of_int 256)
      - startTileX g <? numTilesX g) = true.
Proof.
  apply (pixel_tile_in_grid 600 400 (12 # 1) (7 # 1) 256 0 399); lia.
Defined.

(** ** Where the tiles of [edit.cpp] lie in the raster *)

Lemma inject_Z_nonzero (z : Z) : 0 < z -> ~ (inject_Z z == 0)%Q.
Proof.
  intros Hz. change 0%Q with (inject_Z 0). rewrite inject_Z_injective. lia.
Qed.

Lemma floor_times_le (tl : Q) (tileSize : Z) :
  0 < tileSize ->
  (inject_Z (Qfloor (tl / inject_Z tileSize)) * inject_Z tileSize <= tl)%Q.
Proof.
  intros Hts.
  pose proof (Qfloor_le (tl / inject_Z tileSize)) as Hle.
  apply (Qmult_le_compat_r _ _ (inject_Z tileSize)) in Hle;
    [|by apply Qlt_le_weak, inject_Z_pos].
  eapply Qle_trans; [exact Hle|].
  apply Qle_lteq. right. field. by apply inject_Z_nonzero.
Qed.

Lemma first_offset_nonneg_corner (tl : Q) (tileSize : Z) :
  (0 <= tl)%Q -> 0 < tileSize ->
  tile_offset 0 tileSize tl
  = Qfloor (inject_Z (Qfloor (tl / inject_Z tileSize)) * inject_Z tileSize
            - tl).
Proof.
  intros Htl Hts. unfold tile_offset, Dbl.fmod, Dbl.floor, Dbl.of_int.
  rewrite trunc_nonneg
    by (apply Qdiv_nonneg; [done|by apply inject_Z_pos]).
  apply Qfloor_comp. change (inject_Z 0) with 0%Q. ring.
Qed.

(** Along one axis: with a non-negative corner, every pixel of the raster
    lies under one of the columns of the grid. *)
Lemma covered_axis (tl : Q) (W tileSize x : Z) :
  (0 <= tl)%Q -> 0 < tileSize -> 0 <= x < W ->
  exists t,
    0 <= t < Qfloor ((tl + inject_Z W) / inject_Z tileSize)
             - Qfloor (tl / inject_Z tileSize) + 1
    /\ t * tileSize + tile_offset 0 tileSize tl <= x
       < t * tileSize + tile_offset 0 tileSize tl + tileSize.
Proof.
  intros Htl Hts Hx.
  rewrite (first_offset_nonneg_corner tl tileSize Htl Hts).
  set (q := Qfloor (tl / inject_Z tileSize)).
  set (o := Qfloor (inject_Z q * inject_Z tileSize - tl)).
  pose proof (floor_times_le tl tileSize Hts) as Hq. fold q in Hq.
  assert (o <= 0) as Ho.
  { change 0 with (Qfloor 0). apply Qfloor_resp_le.
    apply (Qplus_le_l _ _ tl). ring_simplify. exact Hq. }
  pose proof (Qlt_floor (inject_Z q * inject_Z tileSize - tl)) as Ho1.
  fold o in Ho1.
  exists ((x - o) / tileSize).
  pose proof (Z.div_mod (x - o) tileSize ltac:(lia)) as Hdm.
  pose proof (Z.mod_pos_bound (x - o) tileSize Hts) as Hm.
  assert (0 <= (x - o) / tileSize) as Ht0 by (apply Z.div_pos; lia).
  split; [|lia]. split; [done|].
  enough ((x - o) / tileSize + q
          <= Qfloor ((tl + inject_Z W) / inject_Z tileSize)) by lia.
  rewrite <- Z.div_add by lia. rewrite Zdiv_Qdiv.
  apply floor_div_mono; [done|].
  apply Qle_trans with (inject_Z (W - 1 - o + q * tileSize)).
  { rewrite <- Zle_Qle. lia. }
  apply Qlt_le_weak in Ho1.
  apply (Qplus_le_l _ _ (tl + inject_Z W - inject_Z (o + 1))) in Ho1.
  ring_simplify in Ho1.
  eapply Qle_trans; [|exact Ho1].
  apply Qle_lteq. right.
  rewrite !inject_Z_plus, !inject_Z_mult.
  unfold Zminus. rewrite !inject_Z_plus, !inject_Z_opp.
  change (inject_Z 1) with 1%Q. ring.
Qed.

Lemma under_grid_nonneg_corner W H centerX centerY tileSize (k : nat) :
  let g := grid W H centerX centerY tileSize in
  0 <= W -> 0 <= H -> 0 < tileSize ->
  (0 <= topLeftX g)%Q -> (0 <= topLeftY g)%Q ->
  Z.of_nat k < W * H * 4 ->
  under_grid W H tileSize (tile_offset 0 tileSize (topLeftX g))
             (tile_offset 0 tileSize (topLeftY g)) g k.
Proof.
  intros g HW HH Hts Htlx Htly Hk.
  destruct (byte_index_decompose W H k HW HH Hk)
    as (x & y & c & -> & Hx & Hy & Hc).
  destruct (covered_axis (topLeftX g) W tileSize x Htlx Hts Hx)
    as (tx & Htx & Hsx).
  destruct (covered_axis (topLeftY g) H tileSize y Htly Hts Hy)
    as (ty & Hty & Hsy).
  exists tx, ty. split; [exact Htx|]. split; [exact Hty|].
  exists x, y, c. repeat split; lia.
Qed.

(** X8: two different tiles of a composite never cover the same byte of
    the raster: for a positive tile size the squares in which [edit.cpp]
    places the tiles of the grid are pairwise disjoint. *)
Theorem tiles_do_not_overlap
    (finalWidth finalHeight tileSize : Z) (topLeftX topLeftY : Q)
    (tx ty tx' ty' : Z) (k : nat) :
  0 < tileSize ->
  (tx, ty) <> (tx', ty') ->
  in_square finalWidth finalHeight tileSize
            (tile_offset tx tileSize topLeftX)
            (tile_offset ty tileSize topLeftY) k ->
  ~ in_square finalWidth finalHeight tileSize
              (tile_offset tx' tileSize topLeftX)
              (tile_offset ty' tileSize topLeftY) k.
Proof.
  rewrite (tile_offset_shift tx), (tile_offset_shift ty),
          (tile_offset_shift tx'), (tile_offset_shift ty').
  intros Hts Hne (x & y & c & -> & Hx & Hy & Hc & Hsx & Hsy)
         (x' & y' & c' & Hk & Hx' & Hy' & Hc' & Hsx' & Hsy').
  unfold byte_index in Hk.
  assert ((y * finalWidth + x) * 4 + c = (y' * finalWidth + x') * 4 + c')
    as Heq by nia.
  assert (y * finalWidth + x = y' * finalWidth + x') as Hp by lia.
  destruct (pixel_index_inj finalWidth x y x' y' Hx Hx' Hp) as [-> ->].
  apply Hne. f_equal; nia.
Qed.

Lemma tiles_do_not_overlap_witness :
  ~ in_square 4 4 2 (tile_offset 1 2 (1 # 2)) (tile_offset 0 2 (1 # 2)) 0%nat.
Proof.
  apply (tiles_do_not_overlap 4 4 2 (1 # 2) (1 # 2) 0 0 1 0 0%nat).
  - lia.
  - discriminate.
  - exists 0, 0, 0. change (tile_offset 0 2 (1 # 2)) with (-1).
    repeat split; lia.
Defined.



(** X10: the blit copies faithfully: a tile of [tileSize*tileSize*4] bytes
    placed at [(offsetX, offsetY)] is copied without fault, afterwards
    byte [c] of tile pixel [(i, j)] is byte [c] of raster pixel
    [(offsetX + i, offsetY + j)] wherever that pixel lies in the raster,
    and every byte outside of the tile's square is what it was. *)
Theorem blit_tile_copies
    (finalWidth finalHeight tileSize offsetX offsetY : Z)
    (pixels finalImage : list byte) :
  0 <= finalWidth -> 0 <= finalHeight ->
  Z.of_nat (length pixels) = tileSize * tileSize * 4 ->
  length finalImage = Z.to_nat (finalWidth * finalHeight * 4) ->
  exists raster,
    blit_tile finalWidth finalHeight tileSize offsetX offsetY pixels
              finalImage = Ok raster
    /\ length raster = length finalImage
    /\ (forall i j c,
          0 <= i < tileSize -> 0 <= j < tileSize -> 0 <= c < 4 ->
          0 <= offsetX + i < finalWidth ->
          0 <= offsetY + j < finalHeight ->
          raster !! byte_index finalWidth (offsetX + i) (offsetY + j) c
          = pixels !! Z.to_nat ((j * tileSize + i) * 4 + c))
    /\ (forall k : nat,
          ~ in_square finalWidth finalHeight tileSize offsetX offsetY k ->
          raster !! k = finalImage !! k).
Proof.
  intros HW HH Hsz Hlen.
  assert (forall i j c,
            0 <= i < tileSize -> 0 <= j < tileSize -> 0 <= c < 4 ->
            0 <= offsetX + i < finalWidth ->
            0 <= offsetY + j < finalHeight ->
            pixels !! Z.to_nat ((j * tileSize + i) * 4 + c)
            = placed finalWidth tileSize offsetX offsetY
                (fun _ _ => pixels)
                (byte_index finalWidth (offsetX + i) (offsetY + j) c))
    as Hplaced.
  { intros i j c Hi Hj Hc Hx Hy. symmetry.
    apply (placed_at finalWidth tileSize offsetX offsetY
             (fun _ _ => pixels) (offsetX + i) (offsetY + j) c 0 0 i j);
      lia. }
  destruct (blit_tile_paints finalWidth finalHeight tileSize offsetX offsetY
              pixels _ HW HH Hsz Hplaced finalImage Hlen)
    as (raster & Hr & Hl & Hk).
  exists raster. split; [exact Hr|]. split; [congruence|]. split.
  - intros i j c Hi Hj Hc Hx Hy.
    destruct (Hk (byte_index finalWidth (offsetX + i) (offsetY + j) c))
      as [[He _]|[_ Hn]].
    + rewrite He. symmetry. by apply Hplaced.
    + exfalso. apply Hn. exists (offsetX + i), (offsetY + j), c.
      repeat split; lia.
  - intros k Hn. destruct (Hk k) as [[_ HR]|[He _]]; [done|exact He].
Qed.

Lemma blit_tile_copies_witness :
  exists raster,
    blit_tile 2 2 2 (-1) 0 numbered_2x2 (vector_fill 16) = Ok raster
    /\ length raster = length (vector_fill 16)
    /\ (forall i j c,
          0 <= i < 2 -> 0 <= j < 2 -> 0 <= c < 4 ->
          0 <= -1 + i < 2 -> 0 <= 0 + j < 2 ->
          raster !! byte_index 2 (-1 + i) (0 + j) c
          = numbered_2x2 !! Z.to_nat ((j * 2 + i) * 4 + c))
    /\ (forall k : nat,
          ~ in_square 2 2 2 (-1) 0 k ->
          raster !! k = vector_fill 16 !! k).
Proof.
  apply (blit_tile_copies 2 2 2 (-1) 0 numbered_2x2 (vector_fill 16));
    [lia|lia|reflexivity|reflexivity].
Defined.

(** ** The event handlers *)

Lemma wheel_zoom_range zoom wheel :
  1 <= zoom <= 19 -> 1 <= wheel_zoom zoom wheel <= 19.
Proof.
  intros Hz. unfold wheel_zoom, clamp.
  destruct (Qeq_bool wheel 0); [done|].
  repeat case_match; lia.
Qed.

(** X11: the zoom level never leaves the range from 1 to 19 that the tile
    server knows, whatever sequence of wheel events the viewer of
    [edit.cpp] receives. *)
Theorem wheel_keeps_zoom_in_range (wheels : list Q) (zoom : Z) :
  1 <= zoom <= 19 ->
  1 <= fold_left wheel_zoom wheels zoom <= 19.
Proof.
  revert zoom. induction wheels as [|wheel wheels IH]; intros zoom Hz;
    cbn [fold_left]; [done|].
  apply IH. by apply wheel_zoom_range.
Qed.

Lemma wheel_keeps_zoom_in_range_witness :
  1 <= fold_left wheel_zoom [1%Q; 1%Q; 1%Q; 1%Q; (-1)%Q] 16 <= 19.
Proof.
  apply (wheel_keeps_zoom_in_range [1%Q; 1%Q; 1%Q; 1%Q; (-1)%Q] 16). lia.
Defined.

(** X12: the wheel handler of [c1.cpp], which steps the zoom level and then
    tests the two bounds one after the other, computes the same zoom level
    as the [std::clamp] of [edit.cpp], for every zoom level and every wheel
    value. *)
Theorem wheel_handlers_agree (zoom : Z) (wheel : Q) :
  Cpp1.wheel_zoom zoom wheel = wheel_zoom zoom wheel.
Proof.
  unfold Cpp1.wheel_zoom, wheel_zoom, clamp. cbv zeta.
  destruct (Qeq_bool wheel 0); [done|].
  repeat case_match; lia.
Qed.

Section Panning.

Local Open Scope R_scope.

Lemma wrap_int_small (z : Z) :
  (- 2 ^ 31 <= z < 2 ^ 31)%Z -> wrap_int z = z.
Proof. intros Hz. unfold wrap_int. rewrite Z.mod_small; lia. Qed.

Lemma IZR_pow2 (zoom : Z) :
  (0 <= zoom)%Z -> IZR (2 ^ zoom) = Projection.n zoom.
Proof.
  intros Hz. unfold Projection.n.
  destruct zoom as [|p|p]; [done| |lia].
  unfold powerRZ. rewrite pow_IZR. by rewrite positive_nat_Z.
Qed.

(** [1 << zoom] is the power of two as long as it fits. *)
Lemma shl_int_1 (zoom : Z) :
  (0 <= zoom)%Z -> (2 ^ zoom < 2 ^ 31)%Z -> shl_int 1 zoom = (2 ^ zoom)%Z.
Proof.
  intros Hz Hfit. unfold shl_int. rewrite Z.shiftl_1_l.
  apply wrap_int_small. pose proof (Z.pow_pos_nonneg 2 zoom). lia.
Qed.

(** [tileSize * (1 << zoom)] is the product as long as it fits. *)
Lemma IZR_pan_divisor (zoom tileSize : Z) :
  (0 <= zoom)%Z -> (0 < tileSize)%Z -> (tileSize * 2 ^ zoom < 2 ^ 31)%Z ->
  IZR (mul_int tileSize (shl_int 1 zoom)) = IZR tileSize * Projection.n zoom.
Proof.
  intros Hz Hts Hfit.
  pose proof (Z.pow_pos_nonneg 2 zoom ltac:(lia) Hz) as Hpos.
  rewrite shl_int_1 by nia.
  unfold mul_int. rewrite wrap_int_small by nia.
  by rewrite mult_IZR, IZR_pow2.
Qed.

Lemma centerX_step (lon pixels : R) (zoom tileSize : Z) :
  (0 <= zoom)%Z -> (0 < tileSize)%Z -> (tileSize * 2 ^ zoom < 2 ^ 31)%Z ->
  Projection.centerX (lon + Pan.step 360 pixels zoom tileSize) zoom tileSize
  = Projection.centerX lon zoom tileSize + pixels.
Proof.
  intros Hz Hts Hfit. unfold Projection.centerX, Pan.step.
  rewrite (IZR_pan_divisor zoom tileSize Hz Hts Hfit).
  pose proof (n_pos zoom) as Hn.
  assert (0 < IZR tileSize) as Ht by (by apply IZR_lt).
  field. split; lra.
Qed.

(** X13: over the real numbers, panning is exact along the horizontal
    axis: a drag by [dragX] pixels moves the centre of the viewport by
    [dragX] global pixels, and the left and right arrow keys move it by 50
    global pixels each, at every zoom level and tile size for which the
    [int] product [tileSize * (1 << zoom)] does not overflow. *)
Theorem pan_moves_centre_by_pixels
    (lat lon dragX dragY : R) (left right up down : bool)
    (zoom tileSize : Z) :
  (0 <= zoom)%Z -> (0 < tileSize)%Z -> (tileSize * 2 ^ zoom < 2 ^ 31)%Z ->
  Projection.centerX (Pan.drag lat lon dragX dragY zoom tileSize).2
                     zoom tileSize
  = Projection.centerX lon zoom tileSize + dragX
  /\ Projection.centerX
       (Pan.arrows lat lon left right up down zoom tileSize).2
       zoom tileSize
     = Projection.centerX lon zoom tileSize
       + (if right then 50 else 0) - (if left then 50 else 0).
Proof.
  intros Hz Hts Hfit. split.
  - unfold Pan.drag. cbn [snd]. by apply centerX_step.
  - unfold Pan.arrows. cbv zeta. cbn [snd].
    pose proof (centerX_step lon 50 zoom tileSize Hz Hts Hfit) as Hr.
    pose proof (centerX_step (lon - Pan.step 360 50 zoom tileSize) 50
                  zoom tileSize Hz Hts Hfit) as Hl.
    pose proof Hl as Hl'.
    replace (lon - Pan.step 360 50 zoom tileSize
             + Pan.step 360 50 zoom tileSize) with lon in Hl' by ring.
    destruct left, right; lra.
Qed.

Lemma pan_moves_centre_by_pixels_witness :
  Projection.centerX (Pan.drag 0 0 10 5 16 256).2 16 256
  = Projection.centerX 0 16 256 + 10
  /\ Projection.centerX (Pan.arrows 0 0 true false false false 16 256).2
                        16 256
     = Projection.centerX 0 16 256 + (if false then 50 else 0)
       - (if true then 50 else 0).
Proof.
  apply (pan_moves_centre_by_pixels 0 0 10 5 true false false false 16 256);
    lia.
Defined.

Lemma centerY_decreasing (zoom tileSize : Z) (lat1 lat2 : R) :
  (0 < tileSize)%Z -> -90 < lat1 -> lat1 < lat2 -> lat2 < 90 ->
  Projection.centerY lat2 zoom tileSize
  < Projection.centerY lat1 zoom tileSize.
Proof.
  intros Hts H1 H12 H2. unfold Projection.centerY. cbv zeta.
  pose proof (n_pos zoom) as Hn.
  assert (0 < IZR tileSize) as Ht by (by apply IZR_lt).
  assert (0 < Projection.n zoom * IZR tileSize) as Hk by nra.
  pose proof PI_RGT_0 as Hpi.
  assert (- (PI / 2) < lat1 * PI / 180) as Ha1 by nra.
  assert (lat1 * PI / 180 < lat2 * PI / 180) as Hab by nra.
  assert (lat2 * PI / 180 < PI / 2) as Hb2 by nra.
  pose proof (mercator_arg_pos _ Ha1 ltac:(lra)) as Hpos.
  pose proof (mercator_arg_increasing _ _ Ha1 Hab Hb2) as Hinc.
  pose proof (ln_increasing _ _ Hpos Hinc) as Hln.
  set (l1 := ln (tan (lat1 * PI / 180) + 1 / cos (lat1 * PI / 180))) in *.
  set (l2 := ln (tan (lat2 * PI / 180) + 1 / cos (lat2 * PI / 180))) in *.
  replace ((1 - l2 / PI) / 2 * Projection.n zoom * IZR tileSize)
    with ((1 - l2 / PI) / 2 * (Projection.n zoom * IZR tileSize)) by ring.
  replace ((1 - l1 / PI) / 2 * Projection.n zoom * IZR tileSize)
    with ((1 - l1 / PI) / 2 * (Projection.n zoom * IZR tileSize)) by ring.
  apply Rmult_lt_compat_r; [done|].
  assert (l1 / PI < l2 / PI); [|lra].
  unfold Rdiv. apply Rmult_lt_compat_r; [|done].
  by apply Rinv_0_lt_compat.
Qed.

Lemma step_pos (degrees pixels : R) (zoom tileSize : Z) :
  (0 <= zoom)%Z -> (0 < tileSize)%Z -> (tileSize * 2 ^ zoom < 2 ^ 31)%Z ->
  0 < degrees -> 0 < pixels ->
  0 < Pan.step degrees pixels zoom tileSize.
Proof.
  intros Hz Hts Hfit Hd Hp. unfold Pan.step.
  rewrite (IZR_pan_divisor zoom tileSize Hz Hts Hfit).
  pose proof (n_pos zoom) as Hn.
  assert (0 < IZR tileSize) as Ht by (by apply IZR_lt).
  apply Rmult_lt_0_compat; [done|].
  apply Rdiv_lt_0_compat; [done|]. by apply Rmult_lt_0_compat.
Qed.

(** X14: over the real numbers, along the vertical axis a drag moves the
    centre in the direction of the drag: dragging by [dragY > 0] pixels
    lowers the latitude and so raises the global pixel Y of the centre, as
    long as the latitude stays between the poles and the [int] product
    [tileSize * (1 << zoom)] does not overflow. *)
Theorem drag_down_moves_centre_down
    (lat lon dragX dragY : R) (zoom tileSize : Z) :
  (0 <= zoom)%Z -> (0 < tileSize)%Z -> (tileSize * 2 ^ zoom < 2 ^ 31)%Z ->
  0 < dragY ->
  lat < 90 -> -90 < (Pan.drag lat lon dragX dragY zoom tileSize).1 ->
  Projection.centerY lat zoom tileSize
  < Projection.centerY (Pan.drag lat lon dragX dragY zoom tileSize).1
                       zoom tileSize.
Proof.
  intros Hz Hts Hfit Hd Hlat Hnew. unfold Pan.drag in *. cbn [fst] in *.
  pose proof (step_pos 180 dragY zoom tileSize Hz Hts Hfit ltac:(lra) Hd)
    as Hs.
  assert (Pan.step 180 (- dragY) zoom tileSize
          = - Pan.step 180 dragY zoom tileSize) as Hneg.
  { unfold Pan.step. ring. }
  rewrite Hneg in *.
  apply centerY_decreasing; [done|done|lra|done].
Qed.

Lemma drag_down_moves_centre_down_witness :
  Projection.centerY 33 16 256
  < Projection.centerY (Pan.drag 33 (-112) 0 10 16 256).1 16 256.
Proof.
  apply (drag_down_moves_centre_down 33 (-112) 0 10 16 256);
    try lia; try lra.
  unfold Pan.drag, Pan.step. cbn [fst].
  change (mul_int 256 (shl_int 1 16)) with 16777216%Z. lra.
Defined.



(** X16: over the real numbers, for a zoom level from 0 to 30, where the
    [int] [1 << zoom] is the power of two, the helper [LatToTileY] is the
    row of the tile in which the projection of [CompositeMap] puts the
    latitude, and between the poles it never grows with the latitude: a
    place further north lies in the same row or in a row with a smaller
    index. *)
Theorem LatToTileY_row (lat1 lat2 : R) (zoom tileSize : Z) :
  (0 <= zoom < 31)%Z -> (0 < tileSize)%Z ->
  -90 < lat1 -> lat1 <= lat2 -> lat2 < 90 ->
  TileIndex.LatToTileY lat1 zoom
  = Zfloor (Projection.centerY lat1 zoom tileSize / IZR tileSize)
  /\ (TileIndex.LatToTileY lat2 zoom <= TileIndex.LatToTileY lat1 zoom)%Z.
Proof.
  intros Hz Hts H1 H12 H2.
  assert (0 < IZR tileSize) as Ht by (by apply IZR_lt).
  assert (forall lat,
            TileIndex.LatToTileY lat zoom
            = Zfloor (Projection.centerY lat zoom tileSize / IZR tileSize))
    as Hrow.
  { intros lat. unfold TileIndex.LatToTileY, Projection.centerY. cbv zeta.
    rewrite shl_int_1, IZR_pow2 by (try apply Z.pow_lt_mono_r; lia).
    f_equal. field.
    pose proof PI_RGT_0. split; lra. }
  split; [apply Hrow|].
  rewrite !Hrow. apply Zfloor_le.
  apply Rmult_le_compat_r; [by apply Rlt_le, Rinv_0_lt_compat|].
  destruct H12 as [H12| ->]; [|lra].
  by apply Rlt_le, centerY_decreasing.
Qed.

Lemma LatToTileY_row_witness :
  TileIndex.LatToTileY 0 1
  = Zfloor (Projection.centerY 0 1 256 / IZR 256)
  /\ (TileIndex.LatToTileY 1 1 <= TileIndex.LatToTileY 0 1)%Z.
Proof.
  apply (LatToTileY_row 0 1 1 256); try lia; lra.
Defined.

End Panning.

(** ** The smooth update of [map_visual.cpp] *)

Lemma apart_false x t :
  apart x t = false <-> (Qabs (x - t) <= double_1e_6)%Q.
Proof.
  unfold apart. rewrite negb_false_iff. apply Qle_bool_iff.
Qed.

Lemma apart_true x t :
  apart x t = true <-> (double_1e_6 < Qabs (x - t))%Q.
Proof.
  rewrite <- not_false_iff_true, apart_false. split.
  - apply Qnot_le_lt.
  - apply Qlt_not_le.
Qed.

Lemma lerp_moving x t :
  apart x t = true -> (lerp x t - t == (4 # 5) * (x - t))%Q.
Proof. intros H. unfold lerp. rewrite H. Lqa.lra. Qed.

Lemma lerp_resting x t : apart x t = false -> lerp x t = x.
Proof. intros H. unfold lerp. by rewrite H. Qed.

(** X17: one interpolation step never overshoots: while the coordinate is
    more than [1e-6] away from its target the step leaves it on the same
    side of the target, at exactly four fifths of the distance; within
    [1e-6] the step leaves the coordinate alone. *)
Theorem lerp_contracts (x target : Q) :
  (Qabs (lerp x target - target) <= Qabs (x - target))%Q
  /\ (apart x target = true ->
      (Qabs (lerp x target - target) == (4 # 5) * Qabs (x - target))%Q
      /\ (0 <= (lerp x target - target) * (x - target))%Q)
  /\ (apart x target = false -> lerp x target = x).
Proof.
  split; [|split].
  - destruct (apart x target) eqn:Ha.
    + rewrite (lerp_moving x target Ha), Qabs_Qmult.
      pose proof (Qabs_nonneg (x - target)) as Hn.
      change (Qabs (4 # 5)) with (4 # 5). Lqa.lra.
    + rewrite (lerp_resting x target Ha). apply Qle_refl.
  - intros Ha. rewrite (lerp_moving x target Ha). split.
    + rewrite Qabs_Qmult. reflexivity.
    + pose proof (Qsqr_nonneg (x - target)) as Hsq.
      simpl in Hsq. Lqa.nra.
  - apply lerp_resting.
Qed.

Lemma lerp_frame (n : nat) x t :
  (Qabs (x - t) <= (5 # 4) ^ Z.of_nat (S n) * double_1e_6)%Q ->
  (Qabs (lerp x t - t) <= (5 # 4) ^ Z.of_nat n * double_1e_6)%Q.
Proof.
  intros H.
  assert ((5 # 4) ^ Z.of_nat (S n) == (5 # 4) * (5 # 4) ^ Z.of_nat n)%Q
    as Hpow.
  { rewrite Nat2Z.inj_succ. unfold Z.succ.
    rewrite Qpower_plus by discriminate.
    change ((5 # 4) ^ 1)%Q with (5 # 4). ring. }
  rewrite Hpow in H.
  pose proof (Qpower_1_le (5 # 4) (Z.of_nat n) ltac:(discriminate)
                ltac:(lia)) as H1.
  destruct (apart x t) eqn:Ha.
  - rewrite (lerp_moving x t Ha), Qabs_Qmult.
    change (Qabs (4 # 5)) with (4 # 5). Lqa.lra.
  - rewrite (lerp_resting x t Ha). apply apart_false in Ha.
    unfold double_1e_6 in *. Lqa.lra.
Qed.

Lemma smooth_frames_rest (n : nat) v targetLat targetLon targetZoom :
  (Qabs (mapCenterLat v - targetLat)
   <= (5 # 4) ^ Z.of_nat n * double_1e_6)%Q ->
  (Qabs (mapCenterLon v - targetLon)
   <= (5 # 4) ^ Z.of_nat n * double_1e_6)%Q ->
  Z.abs (zoom v - targetZoom) <= Z.of_nat n ->
  let w := smooth_frames n v targetLat targetLon targetZoom in
  apart (mapCenterLat w) targetLat = false
  /\ apart (mapCenterLon w) targetLon = false
  /\ zoom w = targetZoom.
Proof.
  revert v. induction n as [|n IH]; intros v Hlat Hlon Hzoom.
  - cbn [smooth_frames]. change ((5 # 4) ^ Z.of_nat 0)%Q with 1%Q in *.
    rewrite !apart_false. repeat split; [Lqa.lra|Lqa.lra|lia].
  - cbn [smooth_frames]. apply IH.
    + unfold smooth_step. cbn [fst mapCenterLat]. by apply lerp_frame.
    + unfold smooth_step. cbn [fst mapCenterLon]. by apply lerp_frame.
    + unfold smooth_step. cbn [fst zoom]. unfold zoom_step.
      repeat case_match; lia.
Qed.

Lemma smooth_step_rest v targetLat targetLon targetZoom :
  apart (mapCenterLat v) targetLat = false ->
  apart (mapCenterLon v) targetLon = false ->
  zoom v = targetZoom ->
  smooth_step v targetLat targetLon targetZoom = (v, false).
Proof.
  intros Hlat Hlon Hzoom. unfold smooth_step, zoom_step.
  rewrite Hlat, Hlon, (lerp_resting _ _ Hlat), (lerp_resting _ _ Hlon).
  subst targetZoom. rewrite Z.ltb_irrefl. by destruct v.
Qed.




(** ** The compositor of [c1.cpp] on its own *)

(** X20: the per-pixel loop of [c1.cpp] never writes outside of the raster:
    for a positive tile size, whatever the tiles are, the composite either
    faults on reading a tile buffer or returns a raster of
    [finalWidth*finalHeight*4] bytes. *)
Theorem C1_CompositeMap_never_writes_outside
    (env : Env) (finalWidth finalHeight : Z) (centerX centerY : Q)
    (zoom tileSize : Z) (st : State) :
  0 <= finalWidth -> 0 <= finalHeight -> 0 < tileSize ->
  no_write_fault
    (fun raster => length raster = Z.to_nat (finalWidth * finalHeight * 4))
    (C1_cpp.CompositeMap env finalWidth finalHeight centerX centerY zoom
                         tileSize st).1.
Proof.
  intros HW HH Hts. unfold C1_cpp.CompositeMap.
  destruct (C1_cpp.load_tiles env zoom _ st) as [tileImages st1].
  cbn [fst]. unfold C1_cpp.composite_pixels, for_loop.
  apply foldM_no_write_fault; [apply length_vector_fill|].
  intros j b Hj Hb. apply elem_of_seqZ in Hj.
  apply foldM_no_write_fault; [exact Hb|].
  intros i b' Hi Hb'. apply elem_of_seqZ in Hi. cbv zeta.
  destruct (_ && _); [|exact Hb'].
  destruct (tileImages !! _) as [row|]; [|done].
  destruct (row !! _) as [[tileImg|]|]; [|exact Hb'|done].
  destruct (pixel_in_raster finalWidth finalHeight i j) as [Hlo Hhi];
    [lia..|].
  apply no_write_fault_Ok. split.
  - apply memcpy_write_in_bounds; lia.
  - intros out Hout. rewrite <- Hb'.
    eapply memcpy_length; [|exact Hout]. lia.
Qed.

Lemma C1_CompositeMap_never_writes_outside_witness :
  (exists raster,
     (C1_cpp.CompositeMap env_2x2 2 2 2 2 1 2 empty_state).1 = Ok raster
     /\ raster <> vector_fill (2 * 2 * 4))
  /\ no_write_fault
       (fun raster => length raster = Z.to_nat (2 * 2 * 4))
       (C1_cpp.CompositeMap env_2x2 2 2 2 2 1 2 empty_state).1.
Proof.
  split.
  - eexists. split; [vm_compute; reflexivity|]. vm_compute. discriminate.
  - apply (C1_CompositeMap_never_writes_outside env_2x2 2 2 2 2 1 2
             empty_state); lia.
Defined.

Lemma mapS_fst_const {A B} (f : A -> State -> B * State) (h : A -> B)
    (l : list A) (st : State) :
  (forall a st', (f a st').1 = h a) ->
  (mapS f l st).1 = h <$> l.
Proof.
  intros Hf.
  apply (mapS_fst_inv (fun _ => True) f h l st I).
  intros a st' _ _. by split.
Qed.

Lemma LoadTileImage_undecoded env url st :
  (forall n url data,
     DownloadURL env n url = Some data ->
     stbi_load_from_memory env data = None) ->
  (C1_cpp.LoadTileImage env url st).1 = None.
Proof.
  intros Hoff. unfold C1_cpp.LoadTileImage.
  destruct (DownloadURL env _ url) as [data|] eqn:Hd; [|done].
  by rewrite (Hoff _ _ _ Hd).
Qed.

(** X21: [c1.cpp] has no fallback tile: when no request is answered with
    bytes that decode, the composite is the white background, at every
    centre, also one whose viewport corner has negative coordinates. *)
Theorem C1_CompositeMap_offline
    (env : Env) (finalWidth finalHeight : Z) (centerX centerY : Q)
    (zoom tileSize : Z) (st : State) :
  0 < tileSize ->
  (forall n url data,
     DownloadURL env n url = Some data ->
     stbi_load_from_memory env data = None) ->
  (C1_cpp.CompositeMap env finalWidth finalHeight centerX centerY zoom
                       tileSize st).1
  = Ok (vector_fill (finalWidth * finalHeight * 4)).
Proof.
  intros Hts Hoff. unfold C1_cpp.CompositeMap.
  set (g := grid finalWidth finalHeight centerX centerY tileSize).
  assert ((C1_cpp.load_tiles env zoom g st).1
          = (fun _ => (fun _ => None) <$> seqZ 0 (numTilesX g))
              <$> seqZ 0 (numTilesY g)) as Himg.
  { unfold C1_cpp.load_tiles. apply mapS_fst_const.
    intros ty st'. apply mapS_fst_const.
    intros tx st''. by apply LoadTileImage_undecoded. }
  destruct (C1_cpp.load_tiles env zoom g st) as [tileImages st1].
  cbn [fst] in *. subst tileImages.
  unfold C1_cpp.composite_pixels, for_loop.
  apply foldM_skip. intros j b Hj.
  apply foldM_skip. intros i b' Hi. cbv zeta.
  destruct (_ && _) eqn:Hrange; [|done].
  apply andb_prop in Hrange as [Hrange Hc2].
  apply andb_prop in Hrange as [Hrange Hc1].
  apply andb_prop in Hrange as [Hr1 Hr2].
  apply Z.leb_le in Hr1, Hc1. apply Z.ltb_lt in Hr2, Hc2.
  rewrite list_lookup_fmap, lookup_seqZ_0 by lia. cbn [fmap option_fmap
    option_map].
  rewrite list_lookup_fmap, lookup_seqZ_0 by lia. done.
Qed.

Lemma C1_CompositeMap_offline_witness :
  (C1_cpp.CompositeMap env_garbage 600 400 256 256 1 256 empty_state).1
  = Ok (vector_fill (600 * 400 * 4)).
Proof.
  apply (C1_CompositeMap_offline env_garbage 600 400 256 256 1 256
           empty_state); [lia|].
  intros n url data _. reflexivity.
Defined.

(** ** The requests of concurrent calls *)

Lemma fetches_ahead_insert pool i t t' :
  pool !! i = Some t ->
  (fetches_ahead (<[i := t']> pool) + to_fetch t
   = fetches_ahead pool + to_fetch t')%nat.
Proof.
  intros Hi. unfold fetches_ahead.
  rewrite <- (take_drop_middle pool i t Hi) at 2.
  rewrite insert_take_drop by (by eapply lookup_lt_Some).
  rewrite !sum_list_with_app. cbn [sum_list_with]. lia.
Qed.

Lemma task_step_requests env t st t' st' :
  task_step env t st = Some (t', st') ->
  (length (requests st') + to_fetch t' <= length (requests st) + to_fetch t)%nat.
Proof.
  destruct t as [k ts|k ts|k px|px]; unfold task_step.
  - destruct (g_tileCache st !! k); intros [= <- <-]; cbn [to_fetch]; lia.
  - unfold fetch_and_decode. cbv zeta. intros [= <- <-].
    cbn [requests to_fetch]. rewrite length_app. cbn [length]. lia.
  - intros [= <- <-]. unfold store. cbn [requests to_fetch]. lia.
  - done.
Qed.

(** X22: whatever the interleaving, a pool of concurrent calls of
    [LoadAndDecodeTile] sends at most one request for each call that has
    not yet passed its download: the number of requests made plus the
    number of such calls never grows. *)
Theorem pool_requests_bounded
    (env : Env) (c c' : list Task * State) :
  pool_steps env c c' ->
  (length (requests c'.2) + fetches_ahead c'.1
   <= length (requests c.2) + fetches_ahead c.1)%nat.
Proof.
  induction 1 as [|c1 c2 c3 Hstep _ IH]; [done|].
  etrans; [exact IH|].
  destruct Hstep as [i t t' pool st st' Hi Hs]. cbn [fst snd].
  pose proof (fetches_ahead_insert pool i t t' Hi).
  pose proof (task_step_requests env t st t' st' Hs). lia.
Qed.

Lemma pool_requests_bounded_witness :
  let key := mkTileKey 1 0 0 in
  (length (requests
             (fetch_and_decode env_offline key 256 empty_state).2)
   + fetches_ahead
       [Storing key (fetch_and_decode env_offline key 256 empty_state).1;
        Fetching key 256]
   <= length (requests empty_state)
      + fetches_ahead [Fetching key 256; Fetching key 256])%nat.
Proof.
  intros key.
  apply (pool_requests_bounded env_offline
           ([Fetching key 256; Fetching key 256], empty_state)
           ([Storing key (fetch_and_decode env_offline key 256
                            empty_state).1;
             Fetching key 256],
            (fetch_and_decode env_offline key 256 empty_state).2)).
  apply pool_steps_one. eapply (pool_step_at _ 0%nat); reflexivity.
Defined.

(** ** The path of the animation *)

Lemma lerp_between x t :
  ((x <= t -> x <= lerp x t /\ lerp x t <= t)
   /\ (t <= x -> t <= lerp x t /\ lerp x t <= x))%Q.
Proof.
  destruct (apart x t) eqn:Ha.
  - pose proof (lerp_moving x t Ha) as Hm. split; intros H; split; Lqa.lra.
  - rewrite (lerp_resting x t Ha). split; intros H; split; Lqa.lra.
Qed.

Lemma zoom_step_between z t :
  Z.min z t <= zoom_step z t <= Z.max z t
  /\ Z.min z t <= Z.min (zoom_step z t) t
  /\ Z.max (zoom_step z t) t <= Z.max z t.
Proof. unfold zoom_step. repeat case_match; lia. Qed.

(** X23: the animation never leaves the segment between where it starts
    and where it goes: after any number of frames each coordinate lies
    between its start value and its target, and the zoom level lies between
    its start level and the target level; so a view that starts between
    zoom levels 1 and 19 and heads for one of them never shows another
    level. *)
Theorem smooth_frames_between
    (n : nat) (v : MapView) (targetLat targetLon : Q) (targetZoom : Z) :
  let w := smooth_frames n v targetLat targetLon targetZoom in
  ((mapCenterLat v <= targetLat ->
    mapCenterLat v <= mapCenterLat w /\ mapCenterLat w <= targetLat)
   /\ (targetLat <= mapCenterLat v ->
       targetLat <= mapCenterLat w /\ mapCenterLat w <= mapCenterLat v)
   /\ (mapCenterLon v <= targetLon ->
       mapCenterLon v <= mapCenterLon w /\ mapCenterLon w <= targetLon)
   /\ (targetLon <= mapCenterLon v ->
       targetLon <= mapCenterLon w /\ mapCenterLon w <= mapCenterLon v))%Q
  /\ Z.min (zoom v) targetZoom <= zoom w <= Z.max (zoom v) targetZoom.
Proof.
  revert v. induction n as [|n IH]; intros v; cbn [smooth_frames].
  { cbv zeta. repeat split; intros; try apply Qle_refl; try done; lia. }
  set (v1 := (smooth_step v targetLat targetLon targetZoom).1).
  assert (mapCenterLat v1 = lerp (mapCenterLat v) targetLat) as E1 by done.
  assert (mapCenterLon v1 = lerp (mapCenterLon v) targetLon) as E2 by done.
  assert (zoom v1 = zoom_step (zoom v) targetZoom) as E3 by done.
  specialize (IH v1). cbv zeta in *. clearbody v1.
  rewrite E1, E2, E3 in IH.
  destruct IH as [(Ha & Hb & Hc & Hd) Hz].
  destruct (lerp_between (mapCenterLat v) targetLat) as [La Lb].
  destruct (lerp_between (mapCenterLon v) targetLon) as [Lc Ld].
  destruct (zoom_step_between (zoom v) targetZoom) as (Z1 & Z2 & Z3).
  split; [|lia].
  split; [|split; [|split]]; intros H.
  - destruct (La H) as [L1 L2]. destruct (Ha L2). split; Lqa.lra.
  - destruct (Lb H) as [L1 L2]. destruct (Hb L1). split; Lqa.lra.
  - destruct (Lc H) as [L1 L2]. destruct (Hc L2). split; Lqa.lra.
  - destruct (Ld H) as [L1 L2]. destruct (Hd L1). split; Lqa.lra.
Qed.
